(** * pointersorter.c: a red-black tree of words with parent links

    The C program keeps its nodes in malloc'ed cells that point at each
    other through [parent], [left] and [right].  The development below
    models the store as a list of cells (an address is an index, [None]
    is the NULL pointer), transcribes the functions of the source as
    functions that take a store and return the store they leave behind,
    and then relates stores to binary trees of addresses in order to
    state and prove what [insert], the rotations and [printTree] do.

    Conventions of the model:
    - a word is the string of bytes before the terminating NUL;
    - [malloc] always succeeds and never hands out an address twice
      (nothing is freed before the program has printed the tree);
    - a [while] loop is a function with a [fuel] argument that bounds
      its turns, and returns [None] when the bound is too small;
    - [recycleNode], [recycleTree] and the tokenizer in [main] are left
      out: nothing stated here depends on them. *)

From Stdlib Require Import ZArith Ascii String List Sorted Permutation Lia.
From stdpp Require Import base option list sets strings sorting.

Local Open Scope list_scope.

(** ** The store *)

Abbreviation ptr := (option nat).

Record node := mkNode {
  word : string;
  color : ascii;   (* r or b; anything else is invalid *)
  parent : ptr;
  left : ptr;
  right : ptr
}.

Abbreviation heap := (list node).

Definition with_word (w : string) (x : node) : node :=
  mkNode w (color x) (parent x) (left x) (right x).
Definition with_color (c : ascii) (x : node) : node :=
  mkNode (word x) c (parent x) (left x) (right x).
Definition with_parent (p : ptr) (x : node) : node :=
  mkNode (word x) (color x) p (left x) (right x).
Definition with_left (p : ptr) (x : node) : node :=
  mkNode (word x) (color x) (parent x) p (right x).
Definition with_right (p : ptr) (x : node) : node :=
  mkNode (word x) (color x) (parent x) (left x) p.

(** [fld f d h a] reads field [f] of the cell at address [a].  The
    program never forms an address outside the store; for such an
    address the model answers with the default [d], and a write to it
    ([alter]) changes nothing. *)
Definition fld {A} (f : node → A) (d : A) (h : heap) (a : nat) : A :=
  from_option f d (h !! a).

(** ** strcmp

    Bytes are compared as unsigned chars, the first difference decides,
    and a proper prefix is smaller.  The C standard fixes only the sign
    of the result, and [insert] looks at nothing else; the model answers
    -1, 0 or 1. *)
Fixpoint strcmp (s1 s2 : string) : Z :=
  match s1, s2 with
  | EmptyString, EmptyString => 0
  | EmptyString, String _ _ => -1
  | String _ _, EmptyString => 1
  | String c1 t1, String c2 t2 =>
      match (N_of_ascii c1 ?= N_of_ascii c2)%N with
      | Lt => -1
      | Gt => 1
      | Eq => strcmp t1 t2
      end
  end.

(** ** Accessors (lines 17-95 of the source) *)

Definition getWord (h : heap) (n : ptr) : option string :=
  match n with
  | None => None
  | Some a => word <$> h !! a
  end.

Definition setWord (h : heap) (n : ptr) (w : string) : heap :=
  match n with
  | Some a => alter (with_word w) a h
  | None => h
  end.

Definition getColor (h : heap) (n : ptr) : ascii :=
  match n with
  | None => "000"%char
  | Some a => fld color "000"%char h a
  end.

Definition setColor (h : heap) (n : ptr) (c : ascii) : heap :=
  match n with
  | Some a =>
      if (Ascii.eqb c "r" || Ascii.eqb c "b")%bool
      then alter (with_color c) a h
      else h
  | None => h
  end.

Definition getParent (h : heap) (child : ptr) : ptr :=
  match child with
  | None => None
  | Some a => fld parent None h a
  end.

Definition setParent (h : heap) (child p : ptr) : heap :=
  match child with
  | Some a => alter (with_parent p) a h
  | None => h
  end.

Definition getLeftChild (h : heap) (p : ptr) : ptr :=
  match p with
  | None => None
  | Some a => fld left None h a
  end.

Definition setLeftChild (h : heap) (p child : ptr) : heap :=
  match p with
  | Some a => alter (with_left child) a h
  | None => h
  end.

Definition getRightChild (h : heap) (p : ptr) : ptr :=
  match p with
  | None => None
  | Some a => fld right None h a
  end.

Definition setRightChild (h : heap) (p child : ptr) : heap :=
  match p with
  | Some a => alter (with_right child) a h
  | None => h
  end.

(** ** Relational queries (lines 103-128) *)

Definition getGrandparent (h : heap) (child : ptr) : ptr :=
  match child with
  | Some c =>
      match fld parent None h c with
      | Some p => fld parent None h p
      | None => None
      end
  | None => None
  end.

Definition getUncle (h : heap) (child : ptr) : ptr :=
  let grandparent := getGrandparent h child in
  match grandparent, child with
  | Some g, Some c =>
      if decide (fld parent None h c = fld left None h g)
      then fld right None h g
      else fld left None h g
  | _, _ => None
  end.

(** ** Allocation (lines 130-140)

    [malloc] hands out the next free address; the cell it returns holds
    no meaningful data until [makeNode] has written every field. *)
Definition blank : node := mkNode "" "000" None None None.

Definition malloc (h : heap) : heap * ptr := (h ++ [blank], Some (length h)).

Definition makeNode (h : heap) (w : string) (p : ptr) : heap * ptr :=
  let '(h, newNode) := malloc h in
  let h := setWord h newNode w in
  let h := setColor h newNode "r" in
  let h := setParent h newNode p in
  let h := setLeftChild h newNode None in
  let h := setRightChild h newNode None in
  (h, newNode).

(** ** Rotations (lines 162-218) *)

Definition leftRotate (h : heap) (root n : ptr) : heap * ptr :=
  let m := getRightChild h n in
  let h := setRightChild h n (getLeftChild h m) in
  let h := if decide (getLeftChild h m ≠ None)
           then setParent h (getLeftChild h m) n else h in
  let h := setParent h m (getParent h n) in
  let '(h, root) :=
    if decide (getParent h n = None) then (h, m)
    else if decide (n = getLeftChild h (getParent h n))
         then (setLeftChild h (getParent h n) m, root)
         else (setRightChild h (getParent h n) m, root) in
  let h := setLeftChild h m n in
  let h := setParent h n m in
  (h, root).

Definition rightRotate (h : heap) (root n : ptr) : heap * ptr :=
  let m := getLeftChild h n in
  let h := setLeftChild h n (getRightChild h m) in
  let h := if decide (getRightChild h m ≠ None)
           then setParent h (getRightChild h m) n else h in
  let h := setParent h m (getParent h n) in
  let '(h, root) :=
    if decide (getParent h n = None) then (h, m)
    else if decide (n = getRightChild h (getParent h n))
         then (setRightChild h (getParent h n) m, root)
         else (setLeftChild h (getParent h n) m, root) in
  let h := setRightChild h m n in
  let h := setParent h n m in
  (h, root).

(** ** Insertion (lines 220-300) *)

(** Outcome of the descent loop of lines 235-247: either the word was
    met (the function returns at once), or the loop ran off the tree and
    leaves [parent] and [cmp] behind. *)
Inductive descent :=
  | Met
  | Fell (parent : ptr) (cmp : Z).

(** The loops of the source are bounded by [fuel]; [None] means that the
    bound was reached (or, in the descent, that a cell outside the store
    was read). *)
Fixpoint descend (fuel : nat) (h : heap) (w : string) (p parent : ptr) (cmp : Z)
  : option descent :=
  match p with
  | None => Some (Fell parent cmp)
  | Some _ =>
      match fuel with
      | 0 => None
      | S fuel =>
          let parent := p in
          match getWord h p with
          | None => None
          | Some k =>
              let cmp := strcmp w k in
              if (cmp =? 0)%Z then Some Met
              else if (cmp <? 0)%Z
                   then descend fuel h w (getLeftChild h p) parent cmp
                   else descend fuel h w (getRightChild h p) parent cmp
          end
      end
  end.

(** One turn of the loop of lines 258-295.  The variable [parent] is
    read but never assigned inside the loop. *)
Definition fixup_body (h : heap) (root p parent : ptr) : heap * ptr * ptr :=
  let uncle := getUncle h p in
  let grandparent := getGrandparent h p in
  if decide (uncle = getRightChild h grandparent) then
    if decide (getColor h uncle = "r"%char) then
      let h := setColor h parent "b" in
      let h := setColor h uncle "b" in
      let h := setColor h grandparent "r" in
      (h, root, grandparent)
    else
      let '(h, root, p) :=
        if decide (p = getRightChild h parent)
        then let p := parent in
             let '(h, root) := leftRotate h root p in (h, root, p)
        else (h, root, p) in
      let h := setColor h parent "b" in
      let h := setColor h grandparent "r" in
      let '(h, root) := rightRotate h root grandparent in
      (h, root, p)
  else
    if decide (getColor h uncle = "r"%char) then
      let h := setColor h parent "b" in
      let h := setColor h uncle "b" in
      let h := setColor h grandparent "r" in
      (h, root, grandparent)
    else
      let '(h, root, p) :=
        if decide (p = getLeftChild h parent)
        then let p := parent in
             let '(h, root) := rightRotate h root p in (h, root, p)
        else (h, root, p) in
      let h := setColor h parent "b" in
      let h := setColor h grandparent "r" in
      let '(h, root) := leftRotate h root grandparent in
      (h, root, p).

Definition fixup_guard (h : heap) (root p parent : ptr) : bool :=
  bool_decide (p ≠ root) && bool_decide (getColor h parent = "r"%char).

Fixpoint fixup (fuel : nat) (h : heap) (root p parent : ptr) : option (heap * ptr) :=
  if fixup_guard h root p parent then
    match fuel with
    | 0 => None
    | S fuel =>
        let '(h, root, p) := fixup_body h root p parent in
        fixup fuel h root p parent
    end
  else Some (h, root).

Definition insert (fuel : nat) (h : heap) (root : ptr) (w : string)
  : option (heap * ptr) :=
  let p := root in
  let '(h, root) :=
    if decide (root = None) then makeNode h w None else (h, root) in
  match descend fuel h w p None 0 with
  | None => None
  | Some Met => Some (h, root)
  | Some (Fell parent cmp) =>
      let '(h, p) :=
        if (cmp <? 0)%Z
        then let '(h, n) := makeNode h w parent in
             let h := setLeftChild h parent n in
             (h, getLeftChild h parent)
        else let '(h, n) := makeNode h w parent in
             let h := setRightChild h parent n in
             (h, getRightChild h parent) in
      match fixup fuel h root p parent with
      | None => None
      | Some (h, root) =>
          let h := setColor h root "b" in
          Some (h, root)
      end
  end.

(** ** Traversal (lines 302-311): the lines printed, in order *)

Fixpoint printTree (fuel : nat) (h : heap) (root : ptr) : option (list string) :=
  match root with
  | None => Some []
  | Some _ =>
      match fuel with
      | 0 => None
      | S fuel =>
          match printTree fuel h (getLeftChild h root), getWord h root,
                printTree fuel h (getRightChild h root) with
          | Some l, Some w, Some r => Some (l ++ w :: r)
          | _, _, _ => None
          end
      end
  end.

(** The caller ([main], lines 333-348) starts from the NULL root and
    feeds [insert] one word after the other. *)
Fixpoint insert_all (fuel : nat) (h : heap) (root : ptr) (ws : list string)
  : option (heap * ptr) :=
  match ws with
  | [] => Some (h, root)
  | w :: ws =>
      match insert fuel h root w with
      | Some (h, root) => insert_all fuel h root ws
      | None => None
      end
  end.

Definition build (fuel : nat) (ws : list string) : option (heap * ptr) :=
  insert_all fuel [] None ws.

(** * What the store is meant to hold

    The definitions below are not part of the program: they are the
    vocabulary in which its behaviour is stated. *)

(** ** Order on words *)

Definition word_lt (a b : string) : Prop := (strcmp a b < 0)%Z.

(** ** Reading a cell *)

Definition links (x : node) : ptr * ptr * ptr := (parent x, left x, right x).

Definition lk (h : heap) (a : nat) : option (ptr * ptr * ptr) := links <$> h !! a.

Definition key (h : heap) (a : nat) : string := fld word "" h a.

Definition col (h : heap) (a : nat) : ascii := fld color "000"%char h a.

Definition upd_parent (p : ptr) (x : ptr * ptr * ptr) : ptr * ptr * ptr := (p, x.1.2, x.2).
Definition upd_left (p : ptr) (x : ptr * ptr * ptr) : ptr * ptr * ptr := (x.1.1, p, x.2).
Definition upd_right (p : ptr) (x : ptr * ptr * ptr) : ptr * ptr * ptr := (x.1.1, x.1.2, p).

(** Two stores with the same words and colours. *)
Definition same_data (h h' : heap) : Prop :=
  length h' = length h ∧ ∀ a, key h' a = key h a ∧ col h' a = col h a.

(** ** Trees of addresses

    A [shape] is the tree the store is meant to hold: each node carries
    the address of its cell.  [rep h par s] says that the cells named by
    [s] are linked in [h] exactly as [s] prescribes, the cell at the top
    having parent pointer [par]. *)

Inductive shape :=
  | Leaf
  | Node (l : shape) (a : nat) (r : shape).

Definition root_of (s : shape) : ptr :=
  match s with
  | Leaf => None
  | Node _ a _ => Some a
  end.

(** The addresses of a tree, left to right. *)
Fixpoint addrs (s : shape) : list nat :=
  match s with
  | Leaf => []
  | Node l a r => addrs l ++ a :: addrs r
  end.

Fixpoint rep (h : heap) (par : ptr) (s : shape) : Prop :=
  match s with
  | Leaf => True
  | Node l a r =>
      lk h a = Some (par, root_of l, root_of r) ∧
      rep h (Some a) l ∧ rep h (Some a) r
  end.

(** The words of a tree, left to right. *)
Definition keys (h : heap) (s : shape) : list string := key h <$> addrs s.

(** The store holds the tree [s] under the root pointer [root]: the
    links agree with [s], the root has no parent, and no cell occurs
    twice. *)
Definition tree (h : heap) (root : ptr) (s : shape) : Prop :=
  root = root_of s ∧ rep h None s ∧ NoDup (addrs s).

(** The search-tree order: the words read left to right ascend
    strictly. *)
Definition ordered (h : heap) (s : shape) : Prop :=
  StronglySorted word_lt (keys h s).

(** What every call of [insert] keeps: a search tree with a black
    root. *)
Definition inv (h : heap) (root : ptr) (s : shape) : Prop :=
  tree h root s ∧ ordered h s ∧ (∀ a, root = Some a → col h a = "b"%char).

(** The shape found in a store by following child pointers, at most
    [fuel] levels deep. *)
Fixpoint shape_of (fuel : nat) (h : heap) (p : ptr) : shape :=
  match fuel, p with
  | S fuel, Some a =>
      Node (shape_of fuel h (getLeftChild h p)) a (shape_of fuel h (getRightChild h p))
  | _, _ => Leaf
  end.

(** ** Trees with a hole

    A context is the list of frames met on the way from a hole up to the
    root; [plug c t] puts [t] into the hole.  [lefts c] and [rights c]
    are the addresses that an in-order walk meets before and after the
    hole, and [up c] is the parent pointer of whatever fills it. *)

Inductive frame :=
  | HoleL (a : nat) (r : shape)
  | HoleR (l : shape) (a : nat).

Definition fill (f : frame) (t : shape) : shape :=
  match f with
  | HoleL a r => Node t a r
  | HoleR l a => Node l a t
  end.

Definition at_frame (f : frame) : nat :=
  match f with
  | HoleL a _ => a
  | HoleR _ a => a
  end.

Fixpoint plug (c : list frame) (t : shape) : shape :=
  match c with
  | [] => t
  | f :: c => plug c (fill f t)
  end.

Definition up (c : list frame) : ptr :=
  match c with
  | [] => None
  | f :: _ => Some (at_frame f)
  end.

Fixpoint lefts (c : list frame) : list nat :=
  match c with
  | [] => []
  | HoleL _ _ :: c => lefts c
  | HoleR l a :: c => lefts c ++ addrs l ++ [a]
  end.

Fixpoint rights (c : list frame) : list nat :=
  match c with
  | [] => []
  | HoleL a r :: c => a :: addrs r ++ rights c
  | HoleR _ _ :: c => rights c
  end.

Fixpoint rep_ctx (h : heap) (c : list frame) (hole : ptr) : Prop :=
  match c with
  | [] => True
  | HoleL a r :: c =>
      lk h a = Some (up c, hole, root_of r) ∧
      rep h (Some a) r ∧ rep_ctx h c (Some a)
  | HoleR l a :: c =>
      lk h a = Some (up c, root_of l, hole) ∧
      rep h (Some a) l ∧ rep_ctx h c (Some a)
  end.

(** ** The descent loop and the new cell *)

(** The values of [parent] and [cmp] when the descent is about to look
    at the hole of [c]. *)
Definition at_hole (c : list frame) (parent : ptr) (cmp : Z) : Prop :=
  match c with
  | [] => parent = None ∧ cmp = 0%Z
  | HoleL a _ :: _ => parent = Some a ∧ (cmp < 0)%Z
  | HoleR _ a :: _ => parent = Some a ∧ (0 < cmp)%Z
  end.

(** [w] lies between what precedes and what follows the hole. *)
Definition between (h : heap) (w : string) (c : list frame) : Prop :=
  (∀ a, a ∈ lefts c → word_lt (key h a) w) ∧
  (∀ a, a ∈ rights c → word_lt w (key h a)).

(** The store after lines 249-255 have hung a fresh red cell into the
    hole below frame [f]. *)
Definition attach (f : frame) (h : heap) (w : string) : heap :=
  let nd := mkNode w "r" (Some (at_frame f)) None None in
  match f with
  | HoleL p _ => setLeftChild (h ++ [nd]) (Some p) (Some (length h))
  | HoleR _ p => setRightChild (h ++ [nd]) (Some p) (Some (length h))
  end.

(** ** Stores the program can produce *)

Inductive reachable : heap → ptr → Prop :=
  | reach_empty : reachable [] None
  | reach_insert fuel h root w h' root' :
      reachable h root → w ≠ ""%string →
      insert fuel h root w = Some (h', root') → reachable h' root'.

(** ** The two colour conditions of a red-black tree *)

(** The cell at [a] is red and so is one of its children. *)
Definition red_red_at (h : heap) (a : nat) : Prop :=
  getColor h (Some a) = "r"%char ∧
  (getColor h (getLeftChild h (Some a)) = "r"%char ∨
   getColor h (getRightChild h (Some a)) = "r"%char).

(** The number of black cells on each path from the top of [s] to an
    absent child, the paths taken left to right. *)
Fixpoint black_paths (h : heap) (s : shape) : list nat :=
  match s with
  | Leaf => [0]
  | Node l a r =>
      let k := if decide (getColor h (Some a) = "b"%char) then 1 else 0 in
      (λ x, k + x) <$> (black_paths h l ++ black_paths h r)
  end.

(** ** A store to try the statements on

    The words m, d, t inserted in this order. *)

Definition example_words : list string := ["m"; "d"; "t"]%string.

Definition example_store : heap :=
  Eval cbv in from_option fst [] (build 3 example_words).

Definition example_root : ptr :=
  Eval cbv in from_option snd None (build 3 example_words).

Definition example_shape : shape :=
  Eval cbv in shape_of 3 example_store example_root.

(** * The rest of the program

    The functions that release the tree, the loop of [main] that cuts
    the argument into words, and the notions their properties are
    stated with. *)

(** Stores that differ by writes to links and colours only. *)
Definition same_words (h h' : heap) : Prop :=
  length h' = length h ∧ ∀ a, key h' a = key h a.

(** Every cell of the store is RED or BLACK (line 11: any other
    colour is invalid). *)
Definition valid_colours (h : heap) : Prop :=
  ∀ a, a < length h →
       getColor h (Some a) = "r"%char ∨ getColor h (Some a) = "b"%char.

(** [below h a c]: following child links from the cell [a] leads to the
    cell [c] (which may be [a] itself). *)
Inductive below (h : heap) : nat → nat → Prop :=
  | below_here a : below h a a
  | below_left a b c :
      getLeftChild h (Some a) = Some b → below h b c → below h a c
  | below_right a b c :
      getRightChild h (Some a) = Some b → below h b c → below h a c.

(** ** Disposal (lines 142-160)

    [free] is modelled by the list of the addresses released so far, in
    the order of their release.  A cell that has been released is gone:
    reading a link of it, or releasing it once more, is an error, for
    which the functions return [None] (as they do when [fuel] runs
    out).  The word of a node is not released (line 145 is a
    comment). *)

Definition recycleNode (freed : list nat) (n : ptr) : option (list nat) :=
  match n with
  | None => Some freed
  | Some a => if decide (a ∈ freed) then None else Some (freed ++ [a])
  end.

Fixpoint recycleTree (fuel : nat) (h : heap) (freed : list nat) (root : ptr)
  : option (list nat) :=
  match root with
  | None => Some freed
  | Some a =>
      match fuel with
      | 0 => None
      | S fuel =>
          if decide (a ∈ freed) then None else
          match recycleTree fuel h freed (getLeftChild h root) with
          | None => None
          | Some freed =>
              if decide (a ∈ freed) then None else
              match recycleTree fuel h freed (getRightChild h root) with
              | None => None
              | Some freed => recycleNode freed root
              end
          end
      end
  end.

(** The addresses of a tree, each after those of its two subtrees. *)
Fixpoint postorder (s : shape) : list nat :=
  match s with
  | Leaf => []
  | Node l a r => postorder l ++ postorder r ++ [a]
  end.

(** ** The words of the argument (lines 330-348 of [main])

    [arg] holds the characters of [argv[1]] before its terminating
    NUL; the memory that [main] reads is [arg] followed by that NUL,
    and a read beyond it is an error ([None]).  [isalpha] is the
    function of [<ctype.h>], turned into a predicate; nothing is assumed
    of it.  The counters [i], [wordLength] and [inputLength] are C
    [int]s that never exceed the length of the argument by more than
    one; they are natural numbers here, which is faithful for arguments
    shorter than [INT_MAX]. *)

Section Tokenizer.
Variable isalpha : ascii → bool.

Definition char_at (arg : list ascii) (i : nat) : option ascii :=
  (arg ++ ["000"%char]) !! i.

(** [strlen] of a memory region: the number of characters before the
    first NUL. *)
Fixpoint strlen (mem : list ascii) : nat :=
  match mem with
  | [] => 0
  | ch :: mem => if Ascii.eqb ch "000" then 0 else S (strlen mem)
  end.

(** The inner loop (lines 334-337); it returns [wordLength] and [i]. *)
Fixpoint scan (fuel : nat) (arg : list ascii) (inputLength wordLength i : nat)
  : option (nat * nat) :=
  match char_at arg i with
  | None => None
  | Some ch =>
      if (isalpha ch && (i <? inputLength))%bool then
        match fuel with
        | 0 => None
        | S fuel => scan fuel arg inputLength (wordLength + 1) (i + 1)
        end
      else Some (wordLength, i)
  end.

(** [memcpy] out of the argument (line 341): [n] characters from
    offset [from] on. *)
Definition memcpy (arg : list ascii) (from n : nat) : list ascii :=
  take n (drop from arg).

(** The outer loop (lines 333-348): the character sequences copied at
    line 341, in the order in which they are handed to [insert]. *)
Fixpoint split_words (fuel : nat) (arg : list ascii) (inputLength i : nat)
  : option (list (list ascii)) :=
  if i <? inputLength then
    match fuel with
    | 0 => None
    | S fuel =>
        match scan fuel arg inputLength 0 i with
        | None => None
        | Some (wordLength, i) =>
            match split_words fuel arg inputLength (i + 1) with
            | None => None
            | Some ws =>
                Some (if decide (wordLength ≠ 0)
                      then memcpy arg (i - wordLength) wordLength :: ws
                      else ws)
            end
        end
    end
  else Some [].

Definition main_words (fuel : nat) (arg : list ascii) : option (list (list ascii)) :=
  let inputLength := strlen (arg ++ ["000"%char]) in
  split_words fuel arg inputLength 0.

(** [tokens_of arg ws]: cutting [arg] at each of its non-alphabetic
    characters and dropping the empty pieces leaves the pieces [ws]. *)
Inductive tokens_of : list ascii → list (list ascii) → Prop :=
  | tokens_nil : tokens_of [] []
  | tokens_skip d rest ws :
      isalpha d = false → tokens_of rest ws → tokens_of (d :: rest) ws
  | tokens_last w :
      w ≠ [] → Forall (λ ch, isalpha ch = true) w → tokens_of w [w]
  | tokens_word w d rest ws :
      w ≠ [] → Forall (λ ch, isalpha ch = true) w → isalpha d = false →
      tokens_of rest ws → tokens_of (w ++ d :: rest) (w :: ws).
End Tokenizer.

(** [isalpha] in the C locale: the letters A-Z and a-z. *)
Definition c_isalpha (ch : ascii) : bool :=
  let n := N_of_ascii ch in
  ((65 <=? n) && (n <=? 90) || (97 <=? n) && (n <=? 122))%N.

(** ** A deeper store to try the statements on

    The words m, d, t, a inserted in this order: the node of a (address
    4) has the parent d (address 2), the grandparent m (address 0) and
    the uncle t (address 3). *)

Definition deeper_store : heap :=
  Eval cbv in from_option fst [] (build 4 ["m"; "d"; "t"; "a"]%string).

Definition deeper_root : ptr :=
  Eval cbv in from_option snd None (build 4 ["m"; "d"; "t"; "a"]%string).

Definition deeper_shape : shape :=
  Eval cbv in shape_of 4 deeper_store deeper_root.

(** * Properties of [strcmp] *)

Lemma strcmp_refl s : strcmp s s = 0%Z.
Proof.
  induction s as [|c s IH]; simpl; [done|].
  by rewrite N.compare_refl.
Qed.

Lemma strcmp_eq a b : strcmp a b = 0%Z → a = b.
Proof.
  revert b. induction a as [|c a IH]; intros [|d b]; simpl; try done.
  destruct (N_of_ascii c ?= N_of_ascii d)%N eqn:E; try done.
  intros H. apply N.compare_eq in E.
  f_equal; [|by apply IH].
  by rewrite <- (ascii_N_embedding c), <- (ascii_N_embedding d), E.
Qed.

Lemma strcmp_antisym a b : strcmp b a = (- strcmp a b)%Z.
Proof.
  revert b. induction a as [|c a IH]; intros [|d b]; simpl; try done.
  rewrite (N.compare_antisym (N_of_ascii c) (N_of_ascii d)).
  destruct (N_of_ascii c ?= N_of_ascii d)%N; simpl; auto.
Qed.

Lemma word_lt_trans a b c : word_lt a b → word_lt b c → word_lt a c.
Proof.
  unfold word_lt. revert b c.
  induction a as [|x a IH]; intros [|y b] [|z c]; simpl; try lia.
  destruct (N_of_ascii x ?= N_of_ascii y)%N eqn:E1;
    destruct (N_of_ascii y ?= N_of_ascii z)%N eqn:E2; try lia.
  - apply N.compare_eq in E1, E2. rewrite E1, E2, N.compare_refl. apply IH.
  - apply N.compare_eq in E1. rewrite E1, E2. lia.
  - apply N.compare_eq in E2. rewrite <- E2, E1. lia.
  - intros _ _. rewrite N.compare_lt_iff in E1, E2.
    assert ((N_of_ascii x ?= N_of_ascii z)%N = Lt) as ->; [|lia].
    apply N.compare_lt_iff. lia.
Qed.

Lemma word_lt_irrefl a : ¬ word_lt a a.
Proof. unfold word_lt. rewrite strcmp_refl. lia. Qed.

Lemma word_lt_asym a b : word_lt a b → ¬ word_lt b a.
Proof. unfold word_lt. rewrite (strcmp_antisym a b). lia. Qed.

Lemma word_gt_lt a b : (0 < strcmp a b)%Z → word_lt b a.
Proof. unfold word_lt. rewrite (strcmp_antisym a b). lia. Qed.

(** * Lemmas on shapes and contexts *)

(** Membership in lists built from [++] and [::]. *)
Ltac elem_solver :=
  intros;
  repeat match goal with
         | H : context [_ ∈ _ ++ _] |- _ => rewrite elem_of_app in H
         | H : context [_ ∈ _ :: _] |- _ => rewrite elem_of_cons in H
         | H : context [_ ∈ []] |- _ => rewrite elem_of_nil in H
         end;
  repeat first [ rewrite elem_of_app | rewrite elem_of_cons | rewrite elem_of_nil ];
  first [tauto | intuition congruence].

Lemma plug_app c1 c2 t : plug (c1 ++ c2) t = plug c2 (plug c1 t).
Proof. revert t. induction c1 as [|f c1 IH]; intros t; simpl; auto. Qed.

Lemma addrs_plug c t : addrs (plug c t) = lefts c ++ addrs t ++ rights c.
Proof.
  revert t. induction c as [|[a r|l a] c IH]; intros t; simpl.
  - by rewrite app_nil_r.
  - rewrite IH. simpl. by rewrite <- !app_assoc.
  - rewrite IH. simpl. by rewrite <- !app_assoc.
Qed.

Lemma root_of_plug_cons f c t t' :
  root_of (plug (f :: c) t) = root_of (plug (f :: c) t').
Proof.
  revert f t t'. induction c as [|g c IH]; intros f t t'.
  - by destruct f.
  - apply (IH g).
Qed.

Lemma rep_plug h c t :
  rep h None (plug c t) ↔ rep_ctx h c (root_of t) ∧ rep h (up c) t.
Proof.
  revert t. induction c as [|[a r|l a] c IH]; intros t; simpl.
  - tauto.
  - rewrite IH. simpl. tauto.
  - rewrite IH. simpl. tauto.
Qed.

Lemma shape_split s a :
  a ∈ addrs s → ∃ c l r, s = plug c (Node l a r).
Proof.
  induction s as [|l IHl b r IHr]; simpl; [by intros ?%elem_of_nil|].
  rewrite elem_of_app, elem_of_cons. intros [Hl|[->|Hr]].
  - destruct (IHl Hl) as (c & l' & r' & ->).
    exists (c ++ [HoleL b r]), l', r'. by rewrite plug_app.
  - by exists [], l, r.
  - destruct (IHr Hr) as (c & l' & r' & ->).
    exists (c ++ [HoleR l b]), l', r'. by rewrite plug_app.
Qed.

Lemma rep_ext h h' par s :
  (∀ a, a ∈ addrs s → lk h' a = lk h a) → rep h par s → rep h' par s.
Proof.
  revert par. induction s as [|l IHl b r IHr]; intros par Hs; simpl; [done|].
  intros (Hb & Hl & Hr). split_and!.
  - rewrite Hs; [done|]. simpl. elem_solver.
  - apply IHl; [|done]. intros a Ha. apply Hs. simpl. elem_solver.
  - apply IHr; [|done]. intros a Ha. apply Hs. simpl. elem_solver.
Qed.

Lemma rep_ctx_ext h h' c hole :
  (∀ a, a ∈ lefts c ++ rights c → lk h' a = lk h a) →
  rep_ctx h c hole → rep_ctx h' c hole.
Proof.
  revert hole. induction c as [|[a r|l a] c IH]; intros hole Hs; simpl; [done|..].
  - intros (Ha & Hr & Hc). split_and!.
    + rewrite Hs; [done|]. simpl. elem_solver.
    + eapply rep_ext; [|done]. intros b ?. apply Hs. simpl. elem_solver.
    + apply IH; [|done]. intros b ?. apply Hs. simpl. elem_solver.
  - intros (Ha & Hl & Hc). split_and!.
    + rewrite Hs; [done|]. simpl. elem_solver.
    + eapply rep_ext; [|done]. intros b ?. apply Hs. simpl. elem_solver.
    + apply IH; [|done]. intros b ?. apply Hs. simpl. elem_solver.
Qed.

Lemma rep_lookup h par s a :
  rep h par s → a ∈ addrs s → is_Some (h !! a).
Proof.
  revert par. induction s as [|l IHl b r IHr]; intros par; simpl;
    [by intros _ ?%elem_of_nil|].
  intros (Hb & Hl & Hr). rewrite elem_of_app, elem_of_cons.
  intros [?|[->|?]]; eauto.
  unfold lk in Hb. destruct (h !! b); [eauto|done].
Qed.

Lemma rep_lt_length h par s a :
  rep h par s → a ∈ addrs s → a < length h.
Proof. intros ? ?. eapply lookup_lt_is_Some, rep_lookup; eauto. Qed.

(** * Reading and writing through the accessors *)

Lemma getParent_lk h a : getParent h (Some a) = from_option (λ x, x.1.1) None (lk h a).
Proof. unfold getParent, fld, lk. by destruct (h !! a). Qed.

Lemma getLeftChild_lk h a : getLeftChild h (Some a) = from_option (λ x, x.1.2) None (lk h a).
Proof. unfold getLeftChild, fld, lk. by destruct (h !! a). Qed.

Lemma getRightChild_lk h a : getRightChild h (Some a) = from_option (λ x, x.2) None (lk h a).
Proof. unfold getRightChild, fld, lk. by destruct (h !! a). Qed.

Lemma lk_alter f g h i a :
  (∀ x, links (f x) = g (links x)) →
  lk (alter f i h) a = if decide (i = a) then g <$> lk h a else lk h a.
Proof.
  intros Hfg. unfold lk. rewrite list_lookup_alter. case_decide; [subst|done].
  destruct (h !! a); simpl; [|done]. by rewrite Hfg.
Qed.

Lemma lk_setParent h i p a :
  lk (setParent h (Some i) p) a = if decide (i = a) then upd_parent p <$> lk h a else lk h a.
Proof. by apply lk_alter. Qed.

Lemma lk_setLeftChild h i p a :
  lk (setLeftChild h (Some i) p) a = if decide (i = a) then upd_left p <$> lk h a else lk h a.
Proof. by apply lk_alter. Qed.

Lemma lk_setRightChild h i p a :
  lk (setRightChild h (Some i) p) a = if decide (i = a) then upd_right p <$> lk h a else lk h a.
Proof. by apply lk_alter. Qed.

Lemma lk_setColor h n c a : lk (setColor h n c) a = lk h a.
Proof.
  destruct n as [i|]; simpl; [|done].
  destruct (_ || _); [|done].
  rewrite (lk_alter _ id) by done. case_decide; [|done]. by rewrite option_fmap_id.
Qed.

Lemma key_alter f h i a :
  (∀ x, word (f x) = word x) → key (alter f i h) a = key h a.
Proof.
  intros Hf. unfold key, fld. rewrite list_lookup_alter.
  case_decide; [subst|done]. destruct (h !! a); simpl; auto.
Qed.

Lemma col_alter f h i a :
  (∀ x, color (f x) = color x) → col (alter f i h) a = col h a.
Proof.
  intros Hf. unfold col, fld. rewrite list_lookup_alter.
  case_decide; [subst|done]. destruct (h !! a); simpl; auto.
Qed.

Lemma same_data_refl h : same_data h h.
Proof. by split. Qed.

Lemma same_data_trans h1 h2 h3 : same_data h1 h2 → same_data h2 h3 → same_data h1 h3.
Proof.
  intros [L1 D1] [L2 D2]. split; [congruence|].
  intros a. destruct (D1 a), (D2 a). split; congruence.
Qed.

Lemma same_data_setParent h n p : same_data h (setParent h n p).
Proof.
  destruct n as [i|]; [|apply same_data_refl]. split; [apply length_alter|].
  intros a. split; [by apply key_alter|by apply col_alter].
Qed.

Lemma same_data_setLeftChild h n p : same_data h (setLeftChild h n p).
Proof.
  destruct n as [i|]; [|apply same_data_refl]. split; [apply length_alter|].
  intros a. split; [by apply key_alter|by apply col_alter].
Qed.

Lemma same_data_setRightChild h n p : same_data h (setRightChild h n p).
Proof.
  destruct n as [i|]; [|apply same_data_refl]. split; [apply length_alter|].
  intros a. split; [by apply key_alter|by apply col_alter].
Qed.

Lemma key_setColor h n c a : key (setColor h n c) a = key h a.
Proof.
  destruct n as [i|]; simpl; [|done]. destruct (_ || _); [|done]. by apply key_alter.
Qed.

Lemma length_setColor h n c : length (setColor h n c) = length h.
Proof.
  destruct n as [i|]; simpl; [|done]. destruct (_ || _); [|done]. apply length_alter.
Qed.

Lemma col_setColor h i c a :
  (c = "r" ∨ c = "b")%char → i < length h →
  col (setColor h (Some i) c) a = if decide (i = a) then c else col h a.
Proof.
  intros Hc Hi. unfold setColor, col, fld.
  replace (Ascii.eqb c "r" || Ascii.eqb c "b")%bool with true
    by (by destruct Hc as [-> | ->]).
  rewrite list_lookup_alter. case_decide; [subst|done].
  apply lookup_lt_is_Some in Hi as [x ->]. done.
Qed.

Lemma keys_same h h' s : same_data h h' → keys h' s = keys h s.
Proof.
  intros [_ D]. unfold keys. apply list_fmap_ext. intros _ a _. apply D.
Qed.

(** From here on the accessors are used through the equations above. *)
Global Arguments getParent : simpl never.
Global Arguments getLeftChild : simpl never.
Global Arguments getRightChild : simpl never.
Global Arguments getColor : simpl never.
Global Arguments getWord : simpl never.
Global Arguments setParent : simpl never.
Global Arguments setLeftChild : simpl never.
Global Arguments setRightChild : simpl never.
Global Arguments setColor : simpl never.
Global Arguments lk : simpl never.
Global Arguments key : simpl never.
Global Arguments col : simpl never.

Lemma at_frame_in f c : at_frame f ∈ lefts (f :: c) ++ rights (f :: c).
Proof. destruct f; simpl; elem_solver. Qed.

(** Reading one field after a write to another one, or to another
    cell. *)
Ltac get_set_tac h :=
  let x := fresh "x" in let y := fresh "y" in
  intros;
  match goal with |- _ (_ h ?u _) ?v = _ => destruct u as [x|], v as [y|]; try done end;
  rewrite ?getParent_lk, ?getLeftChild_lk, ?getRightChild_lk,
    ?lk_setParent, ?lk_setLeftChild, ?lk_setRightChild;
  case_decide; simplify_eq; try done;
  by destruct (lk h _) as [[[??]?]|].

Lemma getParent_setLeftChild h u p v : getParent (setLeftChild h u p) v = getParent h v.
Proof. get_set_tac h. Qed.
Lemma getParent_setRightChild h u p v : getParent (setRightChild h u p) v = getParent h v.
Proof. get_set_tac h. Qed.
Lemma getLeftChild_setParent h u p v : getLeftChild (setParent h u p) v = getLeftChild h v.
Proof. get_set_tac h. Qed.
Lemma getLeftChild_setRightChild h u p v : getLeftChild (setRightChild h u p) v = getLeftChild h v.
Proof. get_set_tac h. Qed.
Lemma getRightChild_setParent h u p v : getRightChild (setParent h u p) v = getRightChild h v.
Proof. get_set_tac h. Qed.
Lemma getRightChild_setLeftChild h u p v : getRightChild (setLeftChild h u p) v = getRightChild h v.
Proof. get_set_tac h. Qed.
Lemma getParent_setParent_ne h u p v : u ≠ v → getParent (setParent h u p) v = getParent h v.
Proof. get_set_tac h. Qed.

(** * Rotations *)

(** The writes a rotation performs, once the tests of the source are
    decided: [b] is the inner grandchild that changes sides. *)
Lemma leftRotate_eq h root n m b :
  getRightChild h (Some n) = Some m → getLeftChild h (Some m) = b →
  n ≠ m → b ≠ Some n →
  leftRotate h root (Some n) =
    let pn := getParent h (Some n) in
    let h3 := setParent (setParent (setRightChild h (Some n) b) b (Some n)) (Some m) pn in
    let h4 := match pn with
              | None => h3
              | Some _ => if decide (Some n = getLeftChild h pn)
                          then setLeftChild h3 pn (Some m) else setRightChild h3 pn (Some m)
              end in
    (setParent (setLeftChild h4 (Some m) (Some n)) (Some n) (Some m),
     if pn is None then Some m else root).
Proof.
  intros Hm Hb Hnm Hbn. unfold leftRotate.
  rewrite Hm, Hb, getLeftChild_setRightChild, Hb.
  assert ((if decide (b ≠ None) then setParent (setRightChild h (Some n) b) b (Some n)
           else setRightChild h (Some n) b)
          = setParent (setRightChild h (Some n) b) b (Some n)) as ->.
  { case_decide; [done|]. by destruct b. }
  rewrite (getParent_setParent_ne _ b) by done.
  rewrite getParent_setRightChild.
  rewrite (getParent_setParent_ne _ (Some m)) by congruence.
  rewrite (getParent_setParent_ne _ b) by done.
  rewrite getParent_setRightChild.
  rewrite !getLeftChild_setParent, getLeftChild_setRightChild.
  simpl. destruct (getParent h (Some n)) as [p|] eqn:Hp.
  - rewrite decide_False by done. by case_decide.
  - by rewrite decide_True by done.
Qed.

(** The links of a cell after a chain of writes are found by peeling
    the writes off one by one. *)
Lemma lk_setParent_eq h a p : lk (setParent h (Some a) p) a = upd_parent p <$> lk h a.
Proof. rewrite lk_setParent. by rewrite decide_True. Qed.
Lemma lk_setLeftChild_eq h a p : lk (setLeftChild h (Some a) p) a = upd_left p <$> lk h a.
Proof. rewrite lk_setLeftChild. by rewrite decide_True. Qed.
Lemma lk_setRightChild_eq h a p : lk (setRightChild h (Some a) p) a = upd_right p <$> lk h a.
Proof. rewrite lk_setRightChild. by rewrite decide_True. Qed.
Lemma lk_setParent_ne h u p a : u ≠ Some a → lk (setParent h u p) a = lk h a.
Proof. destruct u; [|done]. intros. rewrite lk_setParent. rewrite decide_False; congruence. Qed.
Lemma lk_setLeftChild_ne h u p a : u ≠ Some a → lk (setLeftChild h u p) a = lk h a.
Proof. destruct u; [|done]. intros. rewrite lk_setLeftChild. rewrite decide_False; congruence. Qed.
Lemma lk_setRightChild_ne h u p a : u ≠ Some a → lk (setRightChild h u p) a = lk h a.
Proof. destruct u; [|done]. intros. rewrite lk_setRightChild. rewrite decide_False; congruence. Qed.

Ltac lk_peel :=
  repeat first
    [ rewrite lk_setParent_eq | rewrite lk_setLeftChild_eq | rewrite lk_setRightChild_eq
    | rewrite lk_setParent_ne by congruence
    | rewrite lk_setLeftChild_ne by congruence
    | rewrite lk_setRightChild_ne by congruence
    | rewrite lk_setColor ].

(** Telling addresses apart: all that is ever needed follows from the
    fact that no address occurs twice in the tree. *)
Lemma NoDup_sub {A} (l k : list A) : l ⊆+ k → NoDup k → NoDup l.
Proof.
  intros Hsub ND. apply submseteq_Permutation in Hsub as [k' Hk].
  rewrite Hk in ND. by apply NoDup_app in ND as [? _].
Qed.

Lemma NoDup_apart {A} (T X : list A) a : NoDup (T ++ X) → a ∈ X → a ∉ T.
Proof. rewrite NoDup_app. intros (_ & H & _) ? ?. by eapply H. Qed.

(** [distinct T] derives [NoDup T], and [apart T X a] derives that [a], a
    member of [X], is none of [T], from a hypothesis [NoDup w] whose list
    [w] includes [T] and [X]. *)
Ltac distinct T :=
  match goal with
  | ND : NoDup ?w |- _ =>
      let H := fresh "HT" in
      assert (H : NoDup T) by (apply (NoDup_sub T w); [solve_submseteq|exact ND]);
      rewrite ?NoDup_cons, ?not_elem_of_cons in H; destruct_and?
  end.

Ltac apart T Ha :=
  match type of Ha with
  | ?a ∈ ?X =>
      match goal with
      | ND : NoDup ?w |- _ =>
          let H := fresh "HT" in
          assert (H : a ∉ T)
            by (apply (NoDup_apart T X); [|exact Ha];
                apply (NoDup_sub (T ++ X) w); [simpl; solve_submseteq|exact ND]);
          rewrite ?not_elem_of_cons in H; destruct_and?
      end
  end.

Ltac same_data_tac :=
  repeat (eapply same_data_trans;
          [|first [apply same_data_setParent | apply same_data_setLeftChild
                  | apply same_data_setRightChild]]);
  apply same_data_refl.

Lemma root_of_in s a : root_of s = Some a → a ∈ addrs s.
Proof. destruct s; simpl; [done|]. intros [= ->]. elem_solver. Qed.

(** [T] lists the cells a rotation writes to.  [frame_tac T] shows that
    the cells of an untouched subtree keep their links, [cell_tac] reads
    the links of a cell that was written to, and [rep_tac T] rebuilds
    [rep] and [rep_ctx] for the rotated tree from these. *)
Ltac frame_tac T :=
  let a := fresh "a" in let Ha := fresh "Ha" in
  intros a Ha; apart T Ha; lk_peel; done.

Ltac cell_tac :=
  lk_peel;
  repeat match goal with H : lk ?h ?a = Some _ |- context [lk ?h ?a] => rewrite H end;
  done.

Ltac rep_tac T :=
  repeat match goal with
  | |- _ ∧ _ => split
  | |- True => done
  | |- lk _ _ = _ => cell_tac
  | |- rep _ _ _ => (eapply rep_ext; [|eassumption]; frame_tac T)
  | |- rep_ctx _ _ _ => (eapply rep_ctx_ext; [|eassumption]; frame_tac T)
  end.

Ltac rot_start T lem Hn Hm :=
  distinct T;
  erewrite lem;
    [|by rewrite ?getRightChild_lk, ?getLeftChild_lk, Hn
     |by rewrite ?getRightChild_lk, ?getLeftChild_lk, Hm; cbn
     |congruence|cbn; congruence];
  rewrite getParent_lk, Hn; cbn [from_option fst snd].

Ltac rot_side Hp :=
  rewrite ?getLeftChild_lk, ?getRightChild_lk, Hp; cbn [from_option fst snd].

Lemma rightRotate_eq h root n m b :
  getLeftChild h (Some n) = Some m → getRightChild h (Some m) = b →
  n ≠ m → b ≠ Some n →
  rightRotate h root (Some n) =
    let pn := getParent h (Some n) in
    let h3 := setParent (setParent (setLeftChild h (Some n) b) b (Some n)) (Some m) pn in
    let h4 := match pn with
              | None => h3
              | Some _ => if decide (Some n = getRightChild h pn)
                          then setRightChild h3 pn (Some m) else setLeftChild h3 pn (Some m)
              end in
    (setParent (setRightChild h4 (Some m) (Some n)) (Some n) (Some m),
     if pn is None then Some m else root).
Proof.
  intros Hm Hb Hnm Hbn. unfold rightRotate.
  rewrite Hm, Hb, getRightChild_setLeftChild, Hb.
  assert ((if decide (b ≠ None) then setParent (setLeftChild h (Some n) b) b (Some n)
           else setLeftChild h (Some n) b)
          = setParent (setLeftChild h (Some n) b) b (Some n)) as ->.
  { case_decide; [done|]. by destruct b. }
  rewrite (getParent_setParent_ne _ b) by done.
  rewrite getParent_setLeftChild.
  rewrite (getParent_setParent_ne _ (Some m)) by congruence.
  rewrite (getParent_setParent_ne _ b) by done.
  rewrite getParent_setLeftChild.
  rewrite !getRightChild_setParent, getRightChild_setLeftChild.
  simpl. destruct (getParent h (Some n)) as [p|] eqn:Hp.
  - rewrite decide_False by done. by case_decide.
  - by rewrite decide_True by done.
Qed.

(** A left rotation about [n], anywhere in the tree: the store is
    relinked into the rotated tree, the root that is returned is the top
    of that tree, and words and colours stay where they are. *)
Lemma leftRotate_plug h c A n B m C :
  rep h None (plug c (Node A n (Node B m C))) →
  NoDup (addrs (plug c (Node A n (Node B m C)))) →
  ∃ h', leftRotate h (root_of (plug c (Node A n (Node B m C)))) (Some n)
        = (h', root_of (plug c (Node (Node A n B) m C))) ∧
       rep h' None (plug c (Node (Node A n B) m C)) ∧ same_data h h'.
Proof.
  rewrite rep_plug, addrs_plug.
  intros (Hc & Hn & HA & Hm & HB & HC) ND.
  destruct c as [|[p r|l p] c], B as [|Bl b Br]; simpl in *; destruct_and?.
  - rot_start [n; m] leftRotate_eq Hn Hm.
    eexists. split; [done|]. split; [rep_tac [n; m]|same_data_tac].
  - rot_start [n; m; b] leftRotate_eq Hn Hm.
    eexists. split; [done|]. split; [rep_tac [n; m; b]|same_data_tac].
  - rot_start [n; m; p] leftRotate_eq Hn Hm.
    match goal with H : lk h p = _ |- _ => rot_side H end.
    rewrite decide_True by done.
    eexists. split; [f_equal; apply (root_of_plug_cons (HoleL p r))|].
    split; [rewrite rep_plug; simpl; rep_tac [n; m; p]|same_data_tac].
  - rot_start [n; m; b; p] leftRotate_eq Hn Hm.
    match goal with H : lk h p = _ |- _ => rot_side H end.
    rewrite decide_True by done.
    eexists. split; [f_equal; apply (root_of_plug_cons (HoleL p r))|].
    split; [rewrite rep_plug; simpl; rep_tac [n; m; b; p]|same_data_tac].
  - rot_start [n; m; p] leftRotate_eq Hn Hm.
    match goal with H : lk h p = _ |- _ => rot_side H end.
    rewrite decide_False.
    2:{ intros E. symmetry in E. apply root_of_in in E. by apart [n] E. }
    eexists. split; [f_equal; apply (root_of_plug_cons (HoleR l p))|].
    split; [rewrite rep_plug; simpl; rep_tac [n; m; p]|same_data_tac].
  - rot_start [n; m; b; p] leftRotate_eq Hn Hm.
    match goal with H : lk h p = _ |- _ => rot_side H end.
    rewrite decide_False.
    2:{ intros E. symmetry in E. apply root_of_in in E. by apart [n] E. }
    eexists. split; [f_equal; apply (root_of_plug_cons (HoleR l p))|].
    split; [rewrite rep_plug; simpl; rep_tac [n; m; b; p]|same_data_tac].
Qed.

(** The mirror image. *)
Lemma rightRotate_plug h c A m B n C :
  rep h None (plug c (Node (Node A m B) n C)) →
  NoDup (addrs (plug c (Node (Node A m B) n C))) →
  ∃ h', rightRotate h (root_of (plug c (Node (Node A m B) n C))) (Some n)
        = (h', root_of (plug c (Node A m (Node B n C)))) ∧
       rep h' None (plug c (Node A m (Node B n C))) ∧ same_data h h'.
Proof.
  rewrite rep_plug, addrs_plug.
  intros (Hc & Hn & (Hm & HA & HB) & HC) ND.
  destruct c as [|[p r|l p] c], B as [|Bl b Br]; simpl in *; destruct_and?.
  - rot_start [n; m] rightRotate_eq Hn Hm.
    eexists. split; [done|]. split; [rep_tac [n; m]|same_data_tac].
  - rot_start [n; m; b] rightRotate_eq Hn Hm.
    eexists. split; [done|]. split; [rep_tac [n; m; b]|same_data_tac].
  - rot_start [n; m; p] rightRotate_eq Hn Hm.
    match goal with H : lk h p = _ |- _ => rot_side H end.
    rewrite decide_False.
    2:{ intros E. symmetry in E. apply root_of_in in E. by apart [n] E. }
    eexists. split; [f_equal; apply (root_of_plug_cons (HoleL p r))|].
    split; [rewrite rep_plug; simpl; rep_tac [n; m; p]|same_data_tac].
  - rot_start [n; m; b; p] rightRotate_eq Hn Hm.
    match goal with H : lk h p = _ |- _ => rot_side H end.
    rewrite decide_False.
    2:{ intros E. symmetry in E. apply root_of_in in E. by apart [n] E. }
    eexists. split; [f_equal; apply (root_of_plug_cons (HoleL p r))|].
    split; [rewrite rep_plug; simpl; rep_tac [n; m; b; p]|same_data_tac].
  - rot_start [n; m; p] rightRotate_eq Hn Hm.
    match goal with H : lk h p = _ |- _ => rot_side H end.
    rewrite decide_True by done.
    eexists. split; [f_equal; apply (root_of_plug_cons (HoleR l p))|].
    split; [rewrite rep_plug; simpl; rep_tac [n; m; p]|same_data_tac].
  - rot_start [n; m; b; p] rightRotate_eq Hn Hm.
    match goal with H : lk h p = _ |- _ => rot_side H end.
    rewrite decide_True by done.
    eexists. split; [f_equal; apply (root_of_plug_cons (HoleR l p))|].
    split; [rewrite rep_plug; simpl; rep_tac [n; m; b; p]|same_data_tac].
Qed.

(** * The traversal prints the words of the tree *)

Lemma getWord_key h a x : lk h a = Some x → getWord h (Some a) = Some (key h a).
Proof.
  unfold lk, getWord, key, fld. destruct (h !! a); [done|]. by intros ?.
Qed.

Lemma keys_node h l a r : keys h (Node l a r) = keys h l ++ key h a :: keys h r.
Proof. unfold keys. simpl. by rewrite fmap_app. Qed.

Lemma printTree_rep h par s fuel :
  rep h par s → length (addrs s) ≤ fuel →
  printTree fuel h (root_of s) = Some (keys h s).
Proof.
  revert par fuel. induction s as [|l IHl a r IHr]; intros par fuel.
  - by destruct fuel.
  - simpl. rewrite length_app. simpl. intros (Ha & Hl & Hr) Hfuel.
    destruct fuel as [|fuel]; [lia|]. simpl.
    rewrite getLeftChild_lk, getRightChild_lk, Ha. simpl.
    rewrite (IHl (Some a)), (IHr (Some a)) by (done || lia).
    by rewrite (getWord_key _ _ _ Ha), keys_node.
Qed.

(** * The descent loop *)

Lemma ordered_node h l a r :
  ordered h (Node l a r) ↔
  ordered h l ∧ ordered h r ∧
  (∀ x, x ∈ addrs l → word_lt (key h x) (key h a)) ∧
  (∀ y, y ∈ addrs r → word_lt (key h a) (key h y)) ∧
  (∀ x y, x ∈ addrs l → y ∈ addrs r → word_lt (key h x) (key h y)).
Proof.
  unfold ordered. rewrite keys_node. unfold keys.
  rewrite StronglySorted_app, StronglySorted_cons, Forall_forall.
  setoid_rewrite elem_of_cons. setoid_rewrite list_elem_of_fmap.
  split.
  - intros (H1 & H2 & H3 & H4). split_and!; try done.
    + intros x Hx. apply H1; eauto.
    + intros y Hy. apply H3; eauto.
    + intros x y Hx Hy. apply H1; eauto 6.
  - intros (H1 & H2 & H3 & H4 & H5). split_and!; try done.
    + intros ? ? (x & -> & Hx) [-> | (y & -> & Hy)]; eauto.
    + intros ? (y & -> & Hy). eauto.
Qed.

(** In a search tree the loop meets a word that is there, *)
Lemma descend_met h w s : ∀ par fuel parent cmp,
  rep h par s → ordered h s → w ∈ keys h s → length (addrs s) ≤ fuel →
  descend fuel h w (root_of s) parent cmp = Some Met.
Proof.
  induction s as [|l IHl a r IHr]; intros par fuel parent cmp.
  - unfold keys. simpl. by intros _ _ ?%elem_of_nil.
  - simpl. rewrite length_app. simpl.
    intros (Ha & Hl & Hr) (Ol & Or & Hla & Har & _)%ordered_node Hw Hfuel.
    destruct fuel as [|fuel]; [lia|]. simpl.
    rewrite (getWord_key _ _ _ Ha), getLeftChild_lk, getRightChild_lk, Ha. simpl.
    rewrite keys_node in Hw. unfold keys in Hw.
    apply elem_of_app in Hw as [Hw|Hw]; [|apply elem_of_cons in Hw as [->|Hw]].
    + apply list_elem_of_fmap in Hw as Hw'. destruct Hw' as (x & -> & Hx).
      specialize (Hla x Hx). unfold word_lt in Hla.
      destruct (Z.eqb_spec (strcmp (key h x) (key h a)) 0); [lia|].
      destruct (Z.ltb_spec (strcmp (key h x) (key h a)) 0); [|lia].
      apply (IHl (Some a)); auto. lia.
    + by rewrite strcmp_refl.
    + apply list_elem_of_fmap in Hw as Hw'. destruct Hw' as (y & -> & Hy).
      specialize (Har y Hy). unfold word_lt in Har.
      rewrite (strcmp_antisym (key h a) (key h y)).
      destruct (Z.eqb_spec (- strcmp (key h a) (key h y)) 0); [lia|].
      destruct (Z.ltb_spec (- strcmp (key h a) (key h y)) 0); [lia|].
      apply (IHr (Some a)); auto. lia.
Qed.

(** and for a word that is not there it stops at the one hole in which
    the word keeps the order. *)
Lemma descend_fell h w s : ∀ c fuel parent cmp,
  rep h (up c) s → ordered h s → w ∉ keys h s → length (addrs s) ≤ fuel →
  at_hole c parent cmp → between h w c →
  ∃ c' parent' cmp',
    descend fuel h w (root_of s) parent cmp = Some (Fell parent' cmp') ∧
    at_hole c' parent' cmp' ∧ between h w c' ∧ plug c' Leaf = plug c s.
Proof.
  induction s as [|l IHl a r IHr]; intros c fuel parent cmp.
  - intros _ _ _ _ Hpos Hbt. exists c, parent, cmp. by destruct fuel.
  - simpl. rewrite length_app. simpl.
    intros (Ha & Hl & Hr) (Ol & Or & Hla & Har & _)%ordered_node Hw Hfuel Hpos [Bl Br].
    destruct fuel as [|fuel]; [lia|]. simpl.
    rewrite (getWord_key _ _ _ Ha), getLeftChild_lk, getRightChild_lk, Ha. simpl.
    rewrite keys_node in Hw. unfold keys in Hw.
    apply not_elem_of_app in Hw as [Hwl Hw]. apply not_elem_of_cons in Hw as [Hwa Hwr].
    destruct (Z.eqb_spec (strcmp w (key h a)) 0) as [E|E];
      [by apply strcmp_eq in E|].
    destruct (Z.ltb_spec (strcmp w (key h a)) 0) as [Lt|Ge].
    + assert (between h w (HoleL a r :: c)) as Hb'.
      { split; simpl; [done|].
        intros x [->|[Hx|Hx]%elem_of_app]%elem_of_cons; auto.
        eapply word_lt_trans; [exact Lt|auto]. }
      destruct (IHl (HoleL a r :: c) fuel (Some a) (strcmp w (key h a)) Hl Ol Hwl)
        as (c' & parent' & cmp' & ? & ? & ? & ?); [lia|done|done|].
      by exists c', parent', cmp'.
    + assert (word_lt (key h a) w) as Gt by (apply word_gt_lt; lia).
      assert (between h w (HoleR l a :: c)) as Hb'.
      { split; simpl; [|done].
        intros x [Hx|[Hx|Hx%list_elem_of_singleton]%elem_of_app]%elem_of_app;
          subst; auto.
        eapply word_lt_trans; [|exact Gt]. auto. }
      destruct (IHr (HoleR l a :: c) fuel (Some a) (strcmp w (key h a)) Hr Or Hwr)
        as (c' & parent' & cmp' & ? & ? & ? & ?); [lia|split; [done|lia]|done|].
      by exists c', parent', cmp'.
Qed.

(** * Allocation and recolouring *)

Lemma alter_snoc {A} (f : A → A) (l : list A) x :
  alter f (length l) (l ++ [x]) = l ++ [f x].
Proof.
  rewrite <- (Nat.add_0_r (length l)) at 1. by rewrite alter_app_r.
Qed.

Lemma makeNode_eq h w p :
  makeNode h w p = (h ++ [mkNode w "r" p None None], Some (length h)).
Proof.
  unfold makeNode, malloc, setWord, setColor, setParent, setLeftChild, setRightChild.
  simpl. by rewrite !alter_snoc.
Qed.

Lemma lk_snoc_lt h x a : a < length h → lk (h ++ [x]) a = lk h a.
Proof. intros. unfold lk. by rewrite lookup_app_l. Qed.

Lemma lk_snoc_eq h x : lk (h ++ [x]) (length h) = Some (links x).
Proof. unfold lk. by rewrite list_lookup_middle. Qed.

Lemma key_snoc_lt h x a : a < length h → key (h ++ [x]) a = key h a.
Proof. intros. unfold key, fld. by rewrite lookup_app_l. Qed.

Lemma col_snoc_lt h x a : a < length h → col (h ++ [x]) a = col h a.
Proof. intros. unfold col, fld. by rewrite lookup_app_l. Qed.

Lemma key_snoc_eq h x : key (h ++ [x]) (length h) = word x.
Proof. unfold key, fld. by rewrite list_lookup_middle. Qed.

Lemma col_setColor_ne h u c a : u ≠ Some a → col (setColor h u c) a = col h a.
Proof.
  intros Hu. destruct u as [i|]; [|done]. unfold setColor.
  destruct (_ || _); [|done]. unfold col, fld.
  rewrite list_lookup_alter_ne; [done|congruence].
Qed.

Lemma col_setColor_eq h a c :
  (c = "r" ∨ c = "b")%char → a < length h → col (setColor h (Some a) c) a = c.
Proof. intros. rewrite col_setColor by done. by rewrite decide_True. Qed.

Lemma getColor_col h a : getColor h (Some a) = col h a.
Proof. done. Qed.

Lemma rep_setColor h u c par s : rep h par s → rep (setColor h u c) par s.
Proof. apply rep_ext. intros. apply lk_setColor. Qed.

Lemma getGrandparent_eq h n :
  getGrandparent h (Some n) = getParent h (getParent h (Some n)).
Proof.
  unfold getGrandparent, getParent. by destruct (fld parent None h n).
Qed.

Lemma getUncle_eq h n :
  getUncle h (Some n) =
  match getGrandparent h (Some n) with
  | Some g => if decide (getParent h (Some n) = getLeftChild h (Some g))
              then getRightChild h (Some g) else getLeftChild h (Some g)
  | None => None
  end.
Proof. done. Qed.

Lemma root_of_plug_in f c t a :
  root_of (plug (f :: c) t) = Some a → a ∈ lefts (f :: c) ++ rights (f :: c).
Proof.
  revert f t. induction c as [|g c IH]; intros f t.
  - destruct f; simpl; intros [= ->]; elem_solver.
  - intros H. apply (IH g) in H. revert H. destruct f, g; simpl; elem_solver.
Qed.

(** * One turn of the repair loop *)

Lemma getGrandparent_lk h n p g x y x' y' :
  lk h n = Some (Some p, x, y) → lk h p = Some (g, x', y') →
  getGrandparent h (Some n) = g.
Proof.
  intros Hn Hp. rewrite getGrandparent_eq, getParent_lk, Hn. simpl.
  by rewrite getParent_lk, Hp.
Qed.

Lemma getUncle_left h n p g x y x' y' z u :
  lk h n = Some (Some p, x, y) → lk h p = Some (Some g, x', y') →
  lk h g = Some (z, Some p, u) →
  getUncle h (Some n) = u.
Proof.
  intros Hn Hp Hg. rewrite getUncle_eq, (getGrandparent_lk _ _ _ _ _ _ _ _ Hn Hp).
  rewrite getParent_lk, getLeftChild_lk, getRightChild_lk, Hn, Hg. simpl.
  by rewrite decide_True.
Qed.

Lemma getUncle_right h n p g x y x' y' z u :
  lk h n = Some (Some p, x, y) → lk h p = Some (Some g, x', y') →
  lk h g = Some (z, u, Some p) → u ≠ Some p →
  getUncle h (Some n) = u.
Proof.
  intros Hn Hp Hg Hu. rewrite getUncle_eq, (getGrandparent_lk _ _ _ _ _ _ _ _ Hn Hp).
  rewrite getParent_lk, getLeftChild_lk, getRightChild_lk, Hn, Hg. simpl.
  by rewrite decide_False.
Qed.

(** Evaluates the accessors on cells whose links are known. *)
Ltac get_eval :=
  repeat (rewrite ?getParent_lk, ?getLeftChild_lk, ?getRightChild_lk;
    repeat match goal with
           | H : lk ?h ?a = Some _ |- context [lk ?h ?a] => rewrite H
           end;
    cbn [from_option fst snd]).

(** What is left to show after a recolouring, and after one or two
    rotations. *)
Ltac recolor_goals p g :=
  split_and!;
  [ by do 3 apply rep_setColor
  | done
  | done
  | by rewrite !length_setColor
  | intros ?; by rewrite !key_setColor
  | distinct [p; g]; rewrite col_setColor_ne by congruence;
    rewrite col_setColor_ne;
    [ by apply col_setColor_eq; auto
    | let E := fresh in intros E; apply root_of_in in E; by apart [p] E ] ].

Ltac nodup_from ND :=
  rewrite ?addrs_plug; simpl; eapply NoDup_sub; [|exact ND]; solve_submseteq.

Lemma recolor_rotate_facts h h1 h2 p g :
  same_data h h1 →
  same_data (setColor (setColor h1 (Some p) "b") (Some g) "r") h2 →
  p ≠ g → p < length h →
  length h2 = length h ∧ (∀ a, key h2 a = key h a) ∧ col h2 p = "b"%char.
Proof.
  intros [L1 D1] [L2 D2] Hpg Hp. split_and!.
  - by rewrite L2, !length_setColor.
  - intros a. destruct (D2 a) as [-> _]. rewrite !key_setColor. apply D1.
  - destruct (D2 p) as [_ ->]. rewrite col_setColor_ne by congruence.
    apply col_setColor_eq; [auto|lia].
Qed.

Ltac rotated_goals SD1 SD2 p g :=
  split; [eassumption|];
  split; [rewrite !addrs_plug; simpl; repeat (rewrite <- !app_assoc; simpl); done|];
  split; [done|];
  apply (recolor_rotate_facts _ _ _ p g SD1 SD2); [|done];
  distinct [p; g]; congruence.

(** Opens the representation around [n], its parent [p] and its
    grandparent [g]; [Hrep0] and [ND0] keep the unopened facts for the
    rotation lemmas. *)
Ltac fixup_open Hrep ND Hp :=
  pose proof Hrep as Hrep0; pose proof ND as ND0;
  simpl in ND, Hp |- *; rewrite rep_plug in Hrep; simpl in Hrep;
  destruct Hrep as ((Hlp & Hsib & Hlg & Hunc & Hc3) & Hln & HNl & HNr);
  rewrite addrs_plug in ND; simpl in ND;
  unfold fixup_body.

(** One turn of the loop at a node [n] whose parent and grandparent
    exist: whatever the case, the store holds a tree with the same
    in-order sequence afterwards, and [parent] has been painted
    BLACK. *)
Lemma fixup_body_spec h f f' c3 Nl n Nr :
  rep h None (plug (f :: f' :: c3) (Node Nl n Nr)) →
  NoDup (addrs (plug (f :: f' :: c3) (Node Nl n Nr))) →
  ∃ h2 root2 p2 s2,
    fixup_body h (root_of (plug (f :: f' :: c3) (Node Nl n Nr))) (Some n) (Some (at_frame f))
      = (h2, root2, p2) ∧
    rep h2 None s2 ∧ addrs s2 = addrs (plug (f :: f' :: c3) (Node Nl n Nr)) ∧
    root2 = root_of s2 ∧
    length h2 = length h ∧ (∀ a, key h2 a = key h a) ∧
    col h2 (at_frame f) = "b"%char.
Proof.
  intros Hrep ND.
  assert (at_frame f < length h) as Hp.
  { eapply rep_lt_length; [exact Hrep|]. rewrite addrs_plug.
    pose proof (at_frame_in f (f' :: c3)). elem_solver. }
  destruct f as [p sib|sib p], f' as [g unc|unc g].
  - (* n left of p, p left of g: recolour, or rotate right about g *)
    fixup_open Hrep ND Hp.
    rewrite (getUncle_left _ _ _ _ _ _ _ _ _ _ Hln Hlp Hlg),
      (getGrandparent_lk _ _ _ _ _ _ _ _ Hln Hlp).
    get_eval. rewrite decide_True by done.
    case_decide as Hred.
    + eexists _, _, _, _. split; [done|]. recolor_goals p g.
    + rewrite decide_False.
      2:{ intros E. symmetry in E. apply root_of_in in E. by apart [n] E. }
      destruct (rightRotate_plug (setColor (setColor h (Some p) "b") (Some g) "r") c3
        (Node Nl n Nr) p sib g unc) as (h2 & Hrot & Hrep2 & SD);
        [by do 2 apply rep_setColor|done|].
      rewrite Hrot. eexists _, _, _, _. split; [done|].
      rotated_goals (same_data_refl h) SD p g.
  - (* n left of p, p right of g: recolour, or rotate right about p and
       then left about g *)
    fixup_open Hrep ND Hp.
    assert (root_of unc ≠ Some p) as Hup.
    { intros E. apply root_of_in in E. by apart [p] E. }
    rewrite (getUncle_right _ _ _ _ _ _ _ _ _ _ Hln Hlp Hlg Hup),
      (getGrandparent_lk _ _ _ _ _ _ _ _ Hln Hlp).
    get_eval. rewrite decide_False by done.
    case_decide as Hred.
    + eexists _, _, _, _. split; [done|]. recolor_goals p g.
    + rewrite decide_True by done.
      destruct (rightRotate_plug h (HoleR unc g :: c3) Nl n Nr p sib)
        as (h1 & Hrot1 & Hrep1 & SD1); [done..|].
      simpl in Hrot1. rewrite Hrot1.
      destruct (leftRotate_plug (setColor (setColor h1 (Some p) "b") (Some g) "r") c3
        unc g Nl n (Node Nr p sib)) as (h2 & Hrot2 & Hrep2 & SD2);
        [by do 2 apply rep_setColor|nodup_from ND|].
      rewrite Hrot2. eexists _, _, _, _. split; [done|].
      rotated_goals SD1 SD2 p g.
  - (* n right of p, p left of g: recolour, or rotate left about p and
       then right about g *)
    fixup_open Hrep ND Hp.
    rewrite (getUncle_left _ _ _ _ _ _ _ _ _ _ Hln Hlp Hlg),
      (getGrandparent_lk _ _ _ _ _ _ _ _ Hln Hlp).
    get_eval. rewrite decide_True by done.
    case_decide as Hred.
    + eexists _, _, _, _. split; [done|]. recolor_goals p g.
    + rewrite decide_True by done.
      destruct (leftRotate_plug h (HoleL g unc :: c3) sib p Nl n Nr)
        as (h1 & Hrot1 & Hrep1 & SD1); [done..|].
      simpl in Hrot1. rewrite Hrot1.
      destruct (rightRotate_plug (setColor (setColor h1 (Some p) "b") (Some g) "r") c3
        (Node sib p Nl) n Nr g unc) as (h2 & Hrot2 & Hrep2 & SD2);
        [by do 2 apply rep_setColor|nodup_from ND|].
      rewrite Hrot2. eexists _, _, _, _. split; [done|].
      rotated_goals SD1 SD2 p g.
  - (* n right of p, p right of g: recolour, or rotate left about g *)
    fixup_open Hrep ND Hp.
    assert (root_of unc ≠ Some p) as Hup.
    { intros E. apply root_of_in in E. by apart [p] E. }
    rewrite (getUncle_right _ _ _ _ _ _ _ _ _ _ Hln Hlp Hlg Hup),
      (getGrandparent_lk _ _ _ _ _ _ _ _ Hln Hlp).
    get_eval. rewrite decide_False by done.
    case_decide as Hred.
    + eexists _, _, _, _. split; [done|]. recolor_goals p g.
    + rewrite decide_False.
      2:{ intros E. symmetry in E. apply root_of_in in E. by apart [n] E. }
      destruct (leftRotate_plug (setColor (setColor h (Some p) "b") (Some g) "r") c3
        unc g sib p (Node Nl n Nr)) as (h2 & Hrot & Hrep2 & SD);
        [by do 2 apply rep_setColor|done|].
      rewrite Hrot. eexists _, _, _, _. split; [done|].
      rotated_goals (same_data_refl h) SD p g.
Qed.

(** * The repair loop and insertion of a new word *)

Lemma fixup_exit fuel h root p parent :
  fixup_guard h root p parent = false → fixup fuel h root p parent = Some (h, root).
Proof. intros Hg. destruct fuel; simpl; by rewrite Hg. Qed.

(** The loop as a whole.  Since the guard reads the colour of the
    variable [parent], which the body paints BLACK, the body runs at
    most once. *)
Lemma fixup_spec fuel h f c0 Nl n Nr :
  rep h None (plug (f :: c0) (Node Nl n Nr)) →
  NoDup (addrs (plug (f :: c0) (Node Nl n Nr))) →
  (∀ a, root_of (plug (f :: c0) (Node Nl n Nr)) = Some a → col h a = "b"%char) →
  1 ≤ fuel →
  ∃ h2 s2,
    fixup fuel h (root_of (plug (f :: c0) (Node Nl n Nr))) (Some n) (Some (at_frame f))
      = Some (h2, root_of s2) ∧
    rep h2 None s2 ∧ addrs s2 = addrs (plug (f :: c0) (Node Nl n Nr)) ∧
    length h2 = length h ∧ (∀ a, key h2 a = key h a).
Proof.
  intros Hrep ND Hroot Hfuel.
  destruct (decide (col h (at_frame f) = "r"%char)) as [Hred|Hblack].
  - destruct c0 as [|f' c3].
    { specialize (Hroot (at_frame f)). rewrite Hroot in Hred; [done|by destruct f]. }
    destruct fuel as [|fuel]; [lia|].
    destruct (fixup_body_spec h f f' c3 Nl n Nr Hrep ND)
      as (h2 & root2 & p2 & s2 & Hbody & Hrep2 & Haddrs & -> & Hlen & Hkey & Hcol).
    cbn [fixup]. unfold fixup_guard at 1.
    rewrite getColor_col, (bool_decide_eq_true_2 _ Hred), andb_true_r.
    rewrite bool_decide_eq_true_2.
    2:{ intros E. symmetry in E. apply root_of_plug_in in E.
        rewrite addrs_plug in ND. simpl in ND.
        assert (n ∈ [n]) as Hn by elem_solver.
        apply elem_of_app in E as [E|E].
        - apart [n] E. done.
        - apart [n] E. done. }
    rewrite Hbody. rewrite fixup_exit.
    + by exists h2, s2.
    + unfold fixup_guard. rewrite getColor_col, Hcol.
      by rewrite andb_false_r.
  - rewrite fixup_exit.
    + by eexists _, _.
    + unfold fixup_guard. rewrite getColor_col.
      rewrite (bool_decide_eq_false_2 _ Hblack). by rewrite andb_false_r.
Qed.

Lemma attach_data f h w :
  length (attach f h w) = S (length h) ∧
  (∀ a, a < length h →
        key (attach f h w) a = key h a ∧ col (attach f h w) a = col h a) ∧
  key (attach f h w) (length h) = w.
Proof.
  destruct f as [p r|l p]; unfold attach, setLeftChild, setRightChild.
  - split_and!.
    + rewrite length_alter, length_app. simpl. lia.
    + intros a Ha. rewrite (key_alter _ (h ++ _)), (col_alter _ (h ++ _)) by done.
      by rewrite key_snoc_lt, col_snoc_lt.
    + rewrite (key_alter _ (h ++ _)) by done. by rewrite key_snoc_eq.
  - split_and!.
    + rewrite length_alter, length_app. simpl. lia.
    + intros a Ha. rewrite (key_alter _ (h ++ _)), (col_alter _ (h ++ _)) by done.
      by rewrite key_snoc_lt, col_snoc_lt.
    + rewrite (key_alter _ (h ++ _)) by done. by rewrite key_snoc_eq.
Qed.

Lemma attach_rep f c0 h w :
  rep h None (plug (f :: c0) Leaf) →
  NoDup (addrs (plug (f :: c0) Leaf)) →
  rep (attach f h w) None (plug (f :: c0) (Node Leaf (length h) Leaf)) ∧
  NoDup (addrs (plug (f :: c0) (Node Leaf (length h) Leaf))).
Proof.
  intros Hrep ND.
  assert (∀ a, a ∈ lefts (f :: c0) ++ rights (f :: c0) → a < length h) as Hlt.
  { intros a Ha. eapply rep_lt_length; [exact Hrep|].
    rewrite addrs_plug. simpl. elem_solver. }
  split.
  - pose proof (Hlt _ (at_frame_in f c0)) as Hp.
    rewrite rep_plug in Hrep |- *. rewrite addrs_plug in ND.
    destruct f as [p r|l p]; simpl in *; unfold attach;
      destruct Hrep as ((Hlp & Hs & Hc) & _).
    + split_and!; try done.
      * rewrite lk_setLeftChild_eq, lk_snoc_lt, Hlp by done. done.
      * eapply rep_ext; [|done]. intros a Ha. apart [p] Ha.
        rewrite lk_setLeftChild_ne by congruence.
        apply lk_snoc_lt, Hlt. elem_solver.
      * eapply rep_ctx_ext; [|done]. intros a Ha.
        assert (a ≠ p).
        { apply elem_of_app in Ha as [Ha|Ha]; by apart [p] Ha. }
        rewrite lk_setLeftChild_ne by congruence.
        apply lk_snoc_lt, Hlt. elem_solver.
      * rewrite lk_setLeftChild_ne by (intros [= ->]; lia).
        by rewrite lk_snoc_eq.
    + split_and!; try done.
      * rewrite lk_setRightChild_eq, lk_snoc_lt, Hlp by done. done.
      * eapply rep_ext; [|done]. intros a Ha. apart [p] Ha.
        rewrite lk_setRightChild_ne by congruence.
        apply lk_snoc_lt, Hlt. elem_solver.
      * eapply rep_ctx_ext; [|done]. intros a Ha.
        assert (a ≠ p).
        { apply elem_of_app in Ha as [Ha|Ha]; by apart [p] Ha. }
        rewrite lk_setRightChild_ne by congruence.
        apply lk_snoc_lt, Hlt. elem_solver.
      * rewrite lk_setRightChild_ne by (intros [= ->]; lia).
        by rewrite lk_snoc_eq.
  - rewrite addrs_plug in ND |- *. simpl in ND |- *.
    rewrite <- Permutation_middle. apply NoDup_cons. split; [|done].
    intros Hin. apply Hlt in Hin. lia.
Qed.

Global Arguments makeNode : simpl never.
Global Arguments fixup : simpl never.
Global Arguments descend : simpl never.

(** Insertion into the empty tree allocates two cells: the root, and a
    second one (line 253) that is never linked to anything. *)
Lemma insert_empty fuel h w :
  insert fuel h None w =
  Some (h ++ [mkNode w "b" None None None; mkNode w "r" None None None],
        Some (length h)).
Proof.
  unfold insert. rewrite decide_True by done. rewrite !makeNode_eq.
  assert (descend fuel (h ++ [mkNode w "r" None None None]) w None None 0
          = Some (Fell None 0)) as -> by (by destruct fuel).
  cbv beta iota. change (0 <? 0)%Z with false. cbv beta iota.
  rewrite makeNode_eq.
  change (setRightChild ?h None ?x) with h.
  rewrite fixup_exit by done.
  unfold setColor. simpl. rewrite <- (app_assoc h [_] [_]). simpl.
  f_equal. f_equal.
  rewrite <- (Nat.add_0_r (length h)) at 1. by rewrite alter_app_r.
Qed.

(** Insertion of a word that is not in the tree. *)
Lemma insert_new fuel h root s w :
  inv h root s → w ∉ keys h s → length (addrs s) ≤ fuel →
  ∃ h' root' s',
    insert fuel h root w = Some (h', root') ∧ inv h' root' s' ∧
    length (addrs s') = S (length (addrs s)) ∧
    (∀ a, a ∈ addrs s → a < length h) ∧
    (∀ x, x ∈ keys h' s' ↔ x = w ∨ x ∈ keys h s) ∧
    (∀ a, a ∈ addrs s' ↔ a = length h ∨ a ∈ addrs s).
Proof.
  intros ((-> & Hrep & ND) & Hord & Hblack) Hw Hfuel.
  destruct s as [|l r0 r].
  { rewrite insert_empty.
    exists (h ++ [mkNode w "b" None None None; mkNode w "r" None None None]),
      (Some (length h)), (Node Leaf (length h) Leaf).
    split; [done|]. unfold inv, tree. split_and!.
    - done.
    - simpl. split_and!; try done. unfold lk. by rewrite list_lookup_middle.
    - simpl. apply NoDup_singleton.
    - unfold ordered, keys. simpl. repeat constructor.
    - intros a [= <-]. unfold col, fld. by rewrite list_lookup_middle.
    - done.
    - by intros a ?%elem_of_nil.
    - intros x. unfold keys, key, fld. simpl. rewrite list_lookup_middle by done.
      simpl. elem_solver.
    - intros a. simpl. elem_solver. }
  assert (1 ≤ fuel) as Hfuel1.
  { simpl in Hfuel. rewrite length_app in Hfuel. simpl in Hfuel. lia. }
  set (s := Node l r0 r) in *.
  destruct (descend_fell h w s [] fuel None 0 Hrep Hord Hw Hfuel)
    as (c & parent' & cmp' & Hdesc & Hpos & Hbt & Hplug);
    [done|by split; intros ? ?%elem_of_nil|].
  simpl in Hplug. destruct c as [|f c0]; [done|].
  assert (root_of s = Some r0) as Hr0 by done.
  rewrite <- Hplug in *. clear Hplug.
  assert (∀ a, a ∈ addrs (plug (f :: c0) Leaf) → a < length h) as Hlt.
  { intros a Ha. by eapply rep_lt_length. }
  destruct (attach_rep f c0 h w Hrep ND) as [Hrep1 ND1].
  destruct (attach_data f h w) as (Hlen1 & Hdata1 & Hkey1).
  assert (∃ h2 s2,
    insert fuel h (root_of (plug (f :: c0) Leaf)) w
      = Some (setColor h2 (root_of s2) "b", root_of s2) ∧
    rep h2 None s2 ∧ addrs s2 = addrs (plug (f :: c0) (Node Leaf (length h) Leaf)) ∧
    length h2 = length (attach f h w) ∧ (∀ a, key h2 a = key (attach f h w) a))
    as (h2 & s2 & Hins & Hrep2 & Haddrs2 & Hlen2 & Hkey2).
  { destruct (fixup_spec fuel (attach f h w) f c0 Leaf (length h) Leaf Hrep1 ND1)
      as (h2 & s2 & Hfix & ?).
    - intros a Ha. rewrite (root_of_plug_cons _ _ _ Leaf) in Ha.
      destruct (Hdata1 a) as [_ ->]; [|by apply Hblack].
      apply Hlt. rewrite addrs_plug. by apply root_of_plug_in in Ha.
    - done.
    - exists h2, s2. split; [|done].
      rewrite (root_of_plug_cons _ _ _ Leaf) in Hfix. rewrite Hr0 in Hfix, Hdesc |- *.
      unfold insert. rewrite decide_False by done.
      rewrite Hdesc. rewrite !makeNode_eq.
      destruct f as [p rs|ls p]; simpl in Hpos; destruct Hpos as [-> Hcmp].
      + destruct (Z.ltb_spec cmp' 0); [|lia].
        replace (getLeftChild _ (Some p)) with (Some (length h)).
        * unfold attach in Hfix; simpl in Hfix. by rewrite Hfix.
        * rewrite rep_plug in Hrep1. simpl in Hrep1.
          destruct Hrep1 as ((Hlp & _) & _). unfold attach in Hlp.
          by rewrite getLeftChild_lk, Hlp.
      + destruct (Z.ltb_spec cmp' 0); [lia|].
        replace (getRightChild _ (Some p)) with (Some (length h)).
        * unfold attach in Hfix; simpl in Hfix. by rewrite Hfix.
        * rewrite rep_plug in Hrep1. simpl in Hrep1.
          destruct Hrep1 as ((Hlp & _) & _). unfold attach in Hlp.
          by rewrite getRightChild_lk, Hlp. }
  exists (setColor h2 (root_of s2) "b"), (root_of s2), s2.
  split; [done|].
  assert (keys (setColor h2 (root_of s2) "b") s2
          = (key h <$> lefts (f :: c0)) ++ w :: (key h <$> rights (f :: c0))) as Hkeys.
  { unfold keys. rewrite Haddrs2, addrs_plug. simpl.
    rewrite fmap_app, fmap_cons. f_equal; [|f_equal].
    - apply list_fmap_ext. intros _ a Ha%list_elem_of_lookup_2.
      rewrite key_setColor, Hkey2. apply Hdata1, Hlt. rewrite addrs_plug. elem_solver.
    - by rewrite key_setColor, Hkey2.
    - apply list_fmap_ext. intros _ a Ha%list_elem_of_lookup_2.
      rewrite key_setColor, Hkey2. apply Hdata1, Hlt. rewrite addrs_plug. elem_solver. }
  assert (keys h (plug (f :: c0) Leaf)
          = (key h <$> lefts (f :: c0)) ++ (key h <$> rights (f :: c0))) as Hkeys0.
  { unfold keys. rewrite addrs_plug. simpl. by rewrite fmap_app. }
  unfold inv, tree, ordered. rewrite Hkeys, Hkeys0. split_and!.
  - done.
  - by apply rep_setColor.
  - by rewrite Haddrs2.
  - unfold ordered in Hord. rewrite Hkeys0 in Hord.
    apply StronglySorted_app in Hord as (H12 & H1 & H2).
    destruct Hbt as [Hb1 Hb2].
    apply StronglySorted_app. split_and!; [|done|].
    + intros x1 x2 Hx1 [->|Hx2]%elem_of_cons; [|by auto].
      apply list_elem_of_fmap in Hx1 as (a & -> & Ha). auto.
    + apply StronglySorted_cons. split; [|done].
      apply Forall_forall. intros x (a & -> & Ha)%list_elem_of_fmap. auto.
  - intros a Ha. rewrite Ha. apply col_setColor_eq; [auto|].
    eapply rep_lt_length; [exact Hrep2|]. by apply root_of_in.
  - rewrite Haddrs2, !addrs_plug. simpl. rewrite !length_app. simpl. lia.
  - done.
  - intros x. rewrite !elem_of_app, elem_of_cons. tauto.
  - intros a. rewrite Haddrs2, !addrs_plug. simpl.
    rewrite !elem_of_app, elem_of_cons. tauto.
Qed.

(** * Fuel, repeated words and sequences of insertions *)

Lemma descend_unfold fuel h w p parent cmp :
  descend fuel h w p parent cmp =
  match p with
  | None => Some (Fell parent cmp)
  | Some _ =>
      match fuel with
      | 0 => None
      | S fuel =>
          match getWord h p with
          | None => None
          | Some k =>
              if (strcmp w k =? 0)%Z then Some Met
              else if (strcmp w k <? 0)%Z
                   then descend fuel h w (getLeftChild h p) p (strcmp w k)
                   else descend fuel h w (getRightChild h p) p (strcmp w k)
          end
      end
  end.
Proof. by destruct fuel. Qed.

Lemma fixup_unfold fuel h root p parent :
  fixup fuel h root p parent =
  if fixup_guard h root p parent then
    match fuel with
    | 0 => None
    | S fuel =>
        let '(h, root, p) := fixup_body h root p parent in
        fixup fuel h root p parent
    end
  else Some (h, root).
Proof. by destruct fuel. Qed.

(** More fuel does not change a result. *)
Lemma descend_mono fuel fuel' h w p parent cmp d :
  descend fuel h w p parent cmp = Some d → fuel ≤ fuel' →
  descend fuel' h w p parent cmp = Some d.
Proof.
  revert fuel' p parent cmp. induction fuel as [|fuel IH]; intros fuel' p parent cmp.
  - rewrite !descend_unfold. by destruct p.
  - rewrite (descend_unfold (S fuel)), (descend_unfold fuel').
    destruct p as [a|]; [|done].
    destruct fuel' as [|fuel']; [lia|]. intros H Hle.
    destruct (getWord h (Some a)); [|done].
    destruct (_ =? _)%Z; [done|].
    destruct (_ <? _)%Z; apply IH; auto; lia.
Qed.

Lemma fixup_mono fuel fuel' h root p parent r :
  fixup fuel h root p parent = Some r → fuel ≤ fuel' →
  fixup fuel' h root p parent = Some r.
Proof.
  revert fuel' h root p. induction fuel as [|fuel IH]; intros fuel' h root p.
  - rewrite fixup_unfold. destruct (fixup_guard h root p parent) eqn:Hg; [done|].
    intros [= <-] _. by apply fixup_exit.
  - rewrite (fixup_unfold (S fuel)), (fixup_unfold fuel').
    destruct fuel' as [|fuel']; [lia|]. intros H Hle.
    destruct (fixup_guard h root p parent); [|done].
    destruct (fixup_body h root p parent) as [[h1 root1] p1].
    apply IH; auto; lia.
Qed.

Lemma insert_mono fuel fuel' h root w r :
  insert fuel h root w = Some r → fuel ≤ fuel' → insert fuel' h root w = Some r.
Proof.
  unfold insert. intros H Hle.
  destruct (if decide (root = None) then makeNode h w None else (h, root)) as [h0 root0].
  destruct (descend fuel h0 w root None 0) as [d|] eqn:Hd; [|done].
  rewrite (descend_mono _ _ _ _ _ _ _ _ Hd Hle).
  destruct d as [|parent cmp]; [done|].
  destruct (if (cmp <? 0)%Z then _ else _) as [h1 p1].
  destruct (fixup fuel h1 root0 p1 parent) as [r1|] eqn:Hf; [|done].
  by rewrite (fixup_mono _ _ _ _ _ _ _ Hf Hle).
Qed.

Lemma insert_agree fuel fuel' h root w r r' :
  insert fuel h root w = Some r → insert fuel' h root w = Some r' → r = r'.
Proof.
  intros H H'.
  apply (insert_mono _ (fuel `max` fuel')) in H; [|lia].
  apply (insert_mono _ (fuel `max` fuel')) in H'; [|lia].
  congruence.
Qed.

(** Insertion of a word that is in the tree. *)
Lemma insert_dup fuel h root s w :
  tree h root s → ordered h s → w ∈ keys h s → length (addrs s) ≤ fuel →
  insert fuel h root w = Some (h, root).
Proof.
  intros (-> & Hrep & ND) Hord Hw Hfuel.
  destruct s as [|l a r]; [by apply elem_of_nil in Hw|].
  unfold insert. rewrite decide_False by done.
  by rewrite (descend_met h w _ None fuel None 0 Hrep Hord Hw Hfuel).
Qed.

Lemma tree_size h root s : tree h root s → length (addrs s) ≤ length h.
Proof.
  intros (_ & Hrep & ND).
  transitivity (length (seq 0 (length h))); [|by rewrite length_seq].
  apply submseteq_length, NoDup_submseteq; [done|].
  intros a Ha. apply elem_of_seq. split; [lia|]. simpl. by eapply rep_lt_length.
Qed.

Lemma insert_step fuel h root s w :
  inv h root s → length (addrs s) ≤ fuel →
  ∃ h' root' s',
    insert fuel h root w = Some (h', root') ∧ inv h' root' s' ∧ s' ≠ Leaf ∧
    length (addrs s') ≤ S (length (addrs s)) ∧
    (∀ x, x ∈ keys h' s' ↔ x = w ∨ x ∈ keys h s).
Proof.
  intros Hinv Hfuel. destruct (decide (w ∈ keys h s)) as [Hw|Hw].
  - destruct Hinv as (Htree & Hord & Hblack).
    exists h, root, s. split; [by eapply insert_dup|]. split_and!; try done.
    + intros ->. by apply elem_of_nil in Hw.
    + lia.
    + intros x. split; [auto|]. by intros [->|?].
  - destruct (insert_new fuel h root s w Hinv Hw Hfuel)
      as (h' & root' & s' & Hins & Hinv' & Hlen & _ & Hkeys & _).
    exists h', root', s'. split_and!; try done; [|lia].
    intros ->. done.
Qed.

Lemma insert_all_spec fuel ws : ∀ h root s,
  inv h root s → length (addrs s) + length ws ≤ fuel →
  ∃ h' root' s',
    insert_all fuel h root ws = Some (h', root') ∧ inv h' root' s' ∧
    length (addrs s') ≤ length (addrs s) + length ws ∧
    (∀ x, x ∈ keys h' s' ↔ x ∈ ws ∨ x ∈ keys h s).
Proof.
  induction ws as [|w ws IH]; intros h root s Hinv Hfuel.
  - exists h, root, s. split_and!; try done; [lia|].
    intros x. rewrite elem_of_nil. tauto.
  - simpl in *.
    destruct (insert_step fuel h root s w Hinv)
      as (h1 & root1 & s1 & -> & Hinv1 & _ & Hlen & Hkeys1); [lia|].
    destruct (IH h1 root1 s1 Hinv1) as (h' & root' & s' & ? & ? & ? & Hkeys); [lia|].
    exists h', root', s'. split_and!; try done; [lia|].
    intros x. rewrite Hkeys, Hkeys1, elem_of_cons. tauto.
Qed.

Lemma inv_empty : inv [] None Leaf.
Proof.
  split_and!; try done.
  - split_and!; try done. constructor.
  - constructor.
Qed.

(** * From single calls to the whole program *)


Lemma reachable_inv h root : reachable h root → ∃ s, inv h root s.
Proof.
  induction 1 as [|fuel h root w h' root' _ [s Hinv] _ Hins].
  - exists Leaf. apply inv_empty.
  - destruct (insert_step (length (addrs s)) h root s w Hinv)
      as (h1 & root1 & s1 & Hins1 & Hinv1 & _); [done|].
    exists s1. by pose proof (insert_agree _ _ _ _ _ _ _ Hins Hins1) as [= -> ->].
Qed.

Lemma insert_all_reachable fuel ws : ∀ h root h' root',
  reachable h root → Forall (λ w, w ≠ ""%string) ws →
  insert_all fuel h root ws = Some (h', root') → reachable h' root'.
Proof.
  induction ws as [|w ws IH]; intros h root h' root' Hr Hws; simpl.
  - by intros [= <- <-].
  - apply Forall_cons in Hws as [Hw Hws].
    destruct (insert fuel h root w) as [[h1 root1]|] eqn:Hins; [|done].
    apply IH; [|done]. by eapply reach_insert.
Qed.

Lemma StronglySorted_word_lt_NoDup l : StronglySorted word_lt l → NoDup l.
Proof.
  induction 1 as [|x l _ IH Hx]; constructor; [|done].
  intros Hin. rewrite Forall_forall in Hx. by apply (word_lt_irrefl x), Hx.
Qed.

Lemma sorted_same_elements l k :
  StronglySorted word_lt l → StronglySorted word_lt k →
  (∀ x, x ∈ l ↔ x ∈ k) → l = k.
Proof.
  intros Hl Hk Hlk. apply (StronglySorted_unique_strong word_lt); [|done..|].
  - intros x y _ _ Hxy Hyx. by destruct (word_lt_asym x y).
  - apply NoDup_Permutation; auto using StronglySorted_word_lt_NoDup.
Qed.

Lemma build_spec fuel ws :
  length ws ≤ fuel →
  ∃ h root s,
    build fuel ws = Some (h, root) ∧ inv h root s ∧
    length (addrs s) ≤ length ws ∧
    (∀ x, x ∈ keys h s ↔ x ∈ ws).
Proof.
  intros Hfuel.
  destruct (insert_all_spec fuel ws [] None Leaf inv_empty)
    as (h & root & s & Hb & Hinv & Hlen & Hkeys); [simpl; lia|].
  exists h, root, s. split_and!; try done.
  intros x. rewrite Hkeys. unfold keys. simpl. elem_solver.
Qed.

Lemma insert_reachable_spec h root w fuel :
  reachable h root → length h ≤ fuel →
  ∃ h' root' s a,
    insert fuel h root w = Some (h', root') ∧ inv h' root' s ∧ root' = Some a.
Proof.
  intros [s Hinv]%reachable_inv Hfuel.
  destruct (insert_step fuel h root s w Hinv) as (h' & root' & s' & Hins & Hinv' & Hne & _).
  { destruct Hinv as (Ht & _). apply tree_size in Ht. lia. }
  destruct s' as [|l a r]; [done|].
  exists h', root', (Node l a r), a. split_and!; try done. by destruct Hinv' as ((-> & _) & _).
Qed.

Lemma tree_split_right h root s n m :
  tree h root s → n ∈ addrs s → getRightChild h (Some n) = Some m →
  ∃ c A B C, s = plug c (Node A n (Node B m C)).
Proof.
  intros (_ & Hrep & _) Hn Hm.
  destruct (shape_split s n Hn) as (c & l & r & ->).
  apply rep_plug in Hrep as (_ & Hlk & _ & _).
  rewrite getRightChild_lk, Hlk in Hm. simpl in Hm.
  destruct r as [|B m' C]; [done|]. injection Hm as ->. by exists c, l, B, C.
Qed.

Lemma tree_split_left h root s n m :
  tree h root s → n ∈ addrs s → getLeftChild h (Some n) = Some m →
  ∃ c A B C, s = plug c (Node (Node A m B) n C).
Proof.
  intros (_ & Hrep & _) Hn Hm.
  destruct (shape_split s n Hn) as (c & l & r & ->).
  apply rep_plug in Hrep as (_ & Hlk & _ & _).
  rewrite getLeftChild_lk, Hlk in Hm. simpl in Hm.
  destruct l as [|A m' B]; [done|]. injection Hm as ->. by exists c, A, B, r.
Qed.

Lemma root_is_top c l n r :
  NoDup (addrs (plug c (Node l n r))) →
  root_of (plug c (Node l n r)) = Some n ↔ c = [].
Proof.
  intros ND. split; [|by intros ->].
  destruct c as [|f c]; [done|]. intros E%root_of_plug_in.
  rewrite addrs_plug in ND. simpl in ND.
  apply elem_of_app in E as [E|E]; by apart [n] E.
Qed.

Lemma leftRotate_tree h root s n m :
  tree h root s → n ∈ addrs s → getRightChild h (Some n) = Some m →
  ∃ h' root' s',
    leftRotate h root (Some n) = (h', root') ∧ tree h' root' s' ∧
    addrs s' = addrs s ∧ same_data h h' ∧
    root' = (if decide (root = Some n) then Some m else root).
Proof.
  intros Ht Hn Hm.
  destruct (tree_split_right h root s n m Ht Hn Hm) as (c & A & B & C & ->).
  destruct Ht as (-> & Hrep & ND).
  destruct (leftRotate_plug h c A n B m C Hrep ND) as (h' & Hrot & Hrep' & SD).
  exists h', (root_of (plug c (Node (Node A n B) m C))), (plug c (Node (Node A n B) m C)).
  assert (addrs (plug c (Node (Node A n B) m C)) = addrs (plug c (Node A n (Node B m C)))) as Haddrs.
  { rewrite !addrs_plug. simpl. repeat (rewrite <- !app_assoc; simpl). done. }
  unfold tree. rewrite Haddrs. split_and!; try done.
  case_decide as E.
  - apply root_is_top in E; [|done]. by subst c.
  - destruct c as [|f c]; [done|]. apply root_of_plug_cons.
Qed.

Lemma rightRotate_tree h root s n m :
  tree h root s → n ∈ addrs s → getLeftChild h (Some n) = Some m →
  ∃ h' root' s',
    rightRotate h root (Some n) = (h', root') ∧ tree h' root' s' ∧
    addrs s' = addrs s ∧ same_data h h' ∧
    root' = (if decide (root = Some n) then Some m else root).
Proof.
  intros Ht Hn Hm.
  destruct (tree_split_left h root s n m Ht Hn Hm) as (c & A & B & C & ->).
  destruct Ht as (-> & Hrep & ND).
  destruct (rightRotate_plug h c A m B n C Hrep ND) as (h' & Hrot & Hrep' & SD).
  exists h', (root_of (plug c (Node A m (Node B n C)))), (plug c (Node A m (Node B n C))).
  assert (addrs (plug c (Node A m (Node B n C))) = addrs (plug c (Node (Node A m B) n C))) as Haddrs.
  { rewrite !addrs_plug. simpl. repeat (rewrite <- !app_assoc; simpl). done. }
  unfold tree. rewrite Haddrs. split_and!; try done.
  case_decide as E.
  - apply root_is_top in E; [|done]. by subst c.
  - destruct c as [|f c]; [done|]. apply root_of_plug_cons.
Qed.

Lemma tree_root_parent h a s : tree h (Some a) s → getParent h (Some a) = None.
Proof.
  intros (Hroot & Hrep & _). destruct s as [|l b r]; [done|].
  injection Hroot as ->. destruct Hrep as (Hlk & _).
  by rewrite getParent_lk, Hlk.
Qed.

Lemma build_reachable fuel ws h root :
  Forall (λ w, w ≠ ""%string) ws → build fuel ws = Some (h, root) → reachable h root.
Proof. intros Hws. apply insert_all_reachable; [constructor|done]. Qed.

(** * The example store *)


Lemma example_build : build 3 example_words = Some (example_store, example_root).
Proof. by vm_compute. Qed.

Lemma example_reachable : reachable example_store example_root.
Proof.
  apply (build_reachable 3 example_words); [|exact example_build].
  by repeat constructor.
Qed.

Lemma example_tree : tree example_store example_root example_shape.
Proof.
  unfold tree. split_and!.
  - done.
  - vm_compute. tauto.
  - vm_compute. by apply (bool_decide_unpack _).
Qed.

Lemma example_inv : inv example_store example_root example_shape.
Proof.
  split_and!.
  - apply example_tree.
  - vm_compute. repeat constructor.
  - by intros a [= <-].
Qed.

(** * The claims

    [fuel] bounds the number of turns a loop may take.  Each statement
    names a bound that suffices and asserts that the call then returns. *)

(** C1: for every sequence [ws] of non-empty words, inserting them one
    by one into the empty tree and printing the tree yields a list [out]
    that ascends strictly in the order of [strcmp], holds no word twice,
    and holds exactly the words of [ws]; any sequence [ws'] with the same
    set of words (a permutation, with or without repetitions) prints the
    same list. *)
Theorem printTree_build_sorted fuel ws ws' :
  Forall (λ w, w ≠ ""%string) ws → Forall (λ w, w ≠ ""%string) ws' →
  (∀ w, w ∈ ws ↔ w ∈ ws') →
  length ws ≤ fuel → length ws' ≤ fuel →
  ∃ h root out,
    build fuel ws = Some (h, root) ∧
    printTree fuel h root = Some out ∧
    StronglySorted word_lt out ∧ NoDup out ∧
    (∀ w, w ∈ out ↔ w ∈ ws) ∧
    ∃ h' root', build fuel ws' = Some (h', root') ∧
                printTree fuel h' root' = Some out.
Proof.
  intros _ _ Hsame Hfuel Hfuel'.
  destruct (build_spec fuel ws Hfuel)
    as (h & root & s & Hb & ((-> & Hrep & ND) & Hord & _) & Hlen & Hkeys).
  destruct (build_spec fuel ws' Hfuel')
    as (h' & root' & s' & Hb' & ((-> & Hrep' & ND') & Hord' & _) & Hlen' & Hkeys').
  exists h, (root_of s), (keys h s). split_and!; try done.
  - apply (printTree_rep h None); [done|lia].
  - by apply StronglySorted_word_lt_NoDup.
  - exists h', (root_of s'). split; [done|].
    rewrite (printTree_rep h' None) by (done || lia). f_equal.
    apply sorted_same_elements; try done.
    intros x. by rewrite Hkeys, Hkeys', Hsame.
Qed.

Lemma printTree_build_sorted_witness :
  (Forall (λ w, w ≠ ""%string) ["banana"; "apple"; "cherry"; "apple"]%string ∧
   Forall (λ w, w ≠ ""%string) ["cherry"; "banana"; "apple"]%string ∧
   (∀ w, w ∈ ["banana"; "apple"; "cherry"; "apple"]%string ↔
         w ∈ ["cherry"; "banana"; "apple"]%string) ∧
   4 ≤ 4 ∧ 3 ≤ 4) ∧
  ∃ h root out,
    build 4 ["banana"; "apple"; "cherry"; "apple"]%string = Some (h, root) ∧
    printTree 4 h root = Some out ∧
    StronglySorted word_lt out ∧ NoDup out ∧
    (∀ w, w ∈ out ↔ w ∈ ["banana"; "apple"; "cherry"; "apple"]%string) ∧
    ∃ h' root', build 4 ["cherry"; "banana"; "apple"]%string = Some (h', root') ∧
                printTree 4 h' root' = Some out.
Proof.
  assert (Forall (λ w, w ≠ ""%string) ["banana"; "apple"; "cherry"; "apple"]%string) as H1
    by (by repeat constructor).
  assert (Forall (λ w, w ≠ ""%string) ["cherry"; "banana"; "apple"]%string) as H2
    by (by repeat constructor).
  assert (∀ w, w ∈ ["banana"; "apple"; "cherry"; "apple"]%string ↔
               w ∈ ["cherry"; "banana"; "apple"]%string) as H3.
  { intros w. rewrite !elem_of_cons, !elem_of_nil. tauto. }
  split; [split_and!; [done|done|done|simpl; lia|simpl; lia]|].
  apply (printTree_build_sorted 4 _ _ H1 H2 H3); simpl; lia.
Defined.

(** C2: the words d, b, f, a, ab, inserted in this order, leave the
    node holding ab (address 5) RED with a RED child (b): a tree built
    by insertions alone has two consecutive reds.  The loop of lines
    258-295 colours the stale variable [parent] instead of the parent
    of [ptr] after the first rotation of a zig-zag. *)
Theorem red_child_of_red_after_insert :
  ∃ h root s,
    build 5 ["d"; "b"; "f"; "a"; "ab"]%string = Some (h, root) ∧
    reachable h root ∧ tree h root s ∧
    5 ∈ addrs s ∧ getWord h (Some 5) = Some "ab"%string ∧
    getWord h (getRightChild h (Some 5)) = Some "b"%string ∧
    red_red_at h 5.
Proof.
  destruct (build 5 ["d"; "b"; "f"; "a"; "ab"]%string) as [[h root]|] eqn:Hb;
    [|by vm_compute in Hb].
  exists h, root, (shape_of 5 h root).
  split; [done|]. split.
  { eapply build_reachable; [|exact Hb]. by repeat constructor. }
  vm_compute in Hb. injection Hb as <- <-.
  unfold tree. split_and!.
  - by vm_compute.
  - vm_compute. tauto.
  - vm_compute. by apply (bool_decide_unpack _).
  - apply (bool_decide_unpack _). by vm_compute.
  - by vm_compute.
  - by vm_compute.
  - vm_compute. tauto.
Qed.

(** C3: inserting h after a, b, c, d, e, f, g runs one turn of the
    repair loop in the case of a RED uncle: parent and uncle turn
    BLACK, the grandparent [p] turns RED and becomes [ptr].  Now [p] is
    not the root and its parent is RED, and yet the loop stops, because
    its guard reads the colour of the variable [parent], which the
    loop never updates and has just painted BLACK.  The tree that
    [insert] returns keeps the RED node d (address 4) with its RED
    child f. *)
Theorem fixup_stops_after_recolouring :
  ∃ h root h1 h2 p,
    build 7 ["a"; "b"; "c"; "d"; "e"; "f"; "g"]%string = Some (h, root) ∧
    descend 7 h "h" root None 0 = Some (Fell (Some 7) 1) ∧
    h1 = setRightChild (makeNode h "h" (Some 7)).1 (Some 7) (Some 8) ∧
    getColor h1 (getUncle h1 (Some 8)) = "r"%char ∧
    fixup_body h1 root (Some 8) (Some 7) = (h2, root, p) ∧
    p = getGrandparent h1 (Some 8) ∧
    p ≠ root ∧
    getColor h2 p = "r"%char ∧ getColor h2 (getParent h2 p) = "r"%char ∧
    fixup_guard h2 root p (Some 7) = false ∧
    insert 7 h root "h" = Some (setColor h2 root "b", root) ∧
    red_red_at (setColor h2 root "b") 4.
Proof.
  destruct (build 7 ["a"; "b"; "c"; "d"; "e"; "f"; "g"]%string) as [[h root]|] eqn:Hb;
    [|by vm_compute in Hb].
  vm_compute in Hb. injection Hb as <- <-.
  eexists _, _, _, _, _. split; [done|]. split; [done|]. split; [done|].
  split; [done|]. split; [by vm_compute|].
  split_and!; try done. vm_compute. tauto.
Qed.

(** C4: the words c, a, b, inserted in this order, leave a tree in
    which the paths through the left child of the root meet two BLACK
    nodes and the paths through its right child meet one. *)
Theorem black_counts_differ_after_insert :
  ∃ h root s,
    build 3 ["c"; "a"; "b"]%string = Some (h, root) ∧
    reachable h root ∧ tree h root s ∧
    black_paths h s = [2; 2; 1; 1].
Proof.
  destruct (build 3 ["c"; "a"; "b"]%string) as [[h root]|] eqn:Hb;
    [|by vm_compute in Hb].
  exists h, root, (shape_of 3 h root).
  split; [done|]. split.
  { eapply build_reachable; [|exact Hb]. by repeat constructor. }
  vm_compute in Hb. injection Hb as <- <-.
  unfold tree. split_and!.
  - by vm_compute.
  - vm_compute. tauto.
  - vm_compute. by apply (bool_decide_unpack _).
  - by vm_compute.
Qed.

(** C5: after [insert] on a store built by insertions (the empty one
    included) and a non-empty word, the root that is returned is
    BLACK. *)
Theorem insert_root_black h root w fuel :
  reachable h root → w ≠ ""%string → length h ≤ fuel →
  ∃ h' root',
    insert fuel h root w = Some (h', root') ∧ getColor h' root' = "b"%char.
Proof.
  intros Hr _ Hfuel.
  destruct (insert_reachable_spec h root w fuel Hr Hfuel)
    as (h' & root' & s & a & Hins & (_ & _ & Hblack) & ->).
  exists h', (Some a). split; [done|]. by apply Hblack.
Qed.

Lemma insert_root_black_witness :
  (reachable example_store example_root ∧ "k"%string ≠ ""%string ∧
   length example_store ≤ 4) ∧
  ∃ h' root',
    insert 4 example_store example_root "k" = Some (h', root') ∧
    getColor h' root' = "b"%char.
Proof.
  assert (length example_store ≤ 4) as H by (vm_compute; lia).
  split; [split_and!; [apply example_reachable|done|done]|].
  apply (insert_root_black _ _ "k" 4 example_reachable); [done|exact H].
Defined.

(** C6: in any search tree, [insert] with a word the tree holds
    returns the same root and the very same store: no cell is added,
    and no word, colour or link is touched, so the traversal and the
    number of nodes are as before.  When the root is black, as it is
    after every insertion, inserting a word a second time changes
    nothing either. *)
Theorem insert_present_unchanged h root s fuel :
  tree h root s → ordered h s → length (addrs s) ≤ fuel →
  printTree fuel h root = Some (keys h s) ∧
  (∀ w, w ∈ keys h s → insert fuel h root w = Some (h, root)) ∧
  (root = None ∨ getColor h root = "b"%char →
   ∀ w h1 root1, insert fuel h root w = Some (h1, root1) →
                 insert (S fuel) h1 root1 w = Some (h1, root1)).
Proof.
  intros Ht Hord Hfuel. split_and!.
  - destruct Ht as (-> & Hrep & _). by apply (printTree_rep h None).
  - intros w Hw. by eapply insert_dup.
  - intros Hblack w h1 root1 Hins.
    assert (inv h root s) as Hinv.
    { split_and!; try done. intros a ->. by destruct Hblack. }
    destruct (insert_step fuel h root s w Hinv Hfuel)
      as (h' & root' & s' & Hins' & (Ht' & Hord' & _) & _ & Hlen & Hkeys).
    rewrite Hins in Hins'. injection Hins' as <- <-.
    eapply insert_dup; try done; [|lia]. apply Hkeys. by left.
Qed.

Lemma insert_present_unchanged_witness :
  (tree example_store example_root example_shape ∧
   ordered example_store example_shape ∧
   length (addrs example_shape) ≤ 3 ∧
   "d"%string ∈ keys example_store example_shape) ∧
  insert 3 example_store example_root "d" = Some (example_store, example_root).
Proof.
  assert (length (addrs example_shape) ≤ 3) as H2 by (vm_compute; lia).
  assert ("d"%string ∈ keys example_store example_shape) as H3
    by (apply (bool_decide_unpack _); by vm_compute).
  pose proof example_inv as (Ht & Hord & _).
  split; [split_and!; done|].
  by apply (insert_present_unchanged _ _ _ 3 Ht Hord H2).
Defined.

(** C7: in any tree, for a node [n] with a right child [m],
    [leftRotate] leaves the sequence of words read in order (and hence
    what [printTree] prints) as it was, and returns the old root unless
    [n] was the root, in which case it returns [m]; likewise
    [rightRotate] for a node with a left child [m]. *)
Theorem rotations_keep_inorder h root s n m fuel :
  tree h root s → n ∈ addrs s → length (addrs s) ≤ fuel →
  (getRightChild h (Some n) = Some m →
   ∃ h' root' s',
     leftRotate h root (Some n) = (h', root') ∧ tree h' root' s' ∧
     keys h' s' = keys h s ∧
     printTree fuel h' root' = printTree fuel h root ∧
     root' = (if decide (root = Some n) then Some m else root)) ∧
  (getLeftChild h (Some n) = Some m →
   ∃ h' root' s',
     rightRotate h root (Some n) = (h', root') ∧ tree h' root' s' ∧
     keys h' s' = keys h s ∧
     printTree fuel h' root' = printTree fuel h root ∧
     root' = (if decide (root = Some n) then Some m else root)).
Proof.
  intros Ht Hn Hfuel. split; intros Hm.
  - destruct (leftRotate_tree h root s n m Ht Hn Hm)
      as (h' & root' & s' & Hrot & Ht' & Haddrs & SD & Hroot).
    assert (keys h' s' = keys h s) as Hkeys.
    { rewrite (keys_same h h') by done. unfold keys. by rewrite Haddrs. }
    exists h', root', s'. split_and!; try done.
    destruct Ht as (-> & Hrep & _), Ht' as (Hr' & Hrep' & _). rewrite Hr'.
    rewrite (printTree_rep h' None), (printTree_rep h None), Hkeys; try done.
    by rewrite Haddrs.
  - destruct (rightRotate_tree h root s n m Ht Hn Hm)
      as (h' & root' & s' & Hrot & Ht' & Haddrs & SD & Hroot).
    assert (keys h' s' = keys h s) as Hkeys.
    { rewrite (keys_same h h') by done. unfold keys. by rewrite Haddrs. }
    exists h', root', s'. split_and!; try done.
    destruct Ht as (-> & Hrep & _), Ht' as (Hr' & Hrep' & _). rewrite Hr'.
    rewrite (printTree_rep h' None), (printTree_rep h None), Hkeys; try done.
    by rewrite Haddrs.
Qed.

Lemma rotations_keep_inorder_witness :
  (tree example_store example_root example_shape ∧ 0 ∈ addrs example_shape ∧
   length (addrs example_shape) ≤ 3 ∧
   getRightChild example_store (Some 0) = Some 3) ∧
  ∃ h' root' s',
    leftRotate example_store example_root (Some 0) = (h', root') ∧
    tree h' root' s' ∧ keys h' s' = keys example_store example_shape ∧
    printTree 3 h' root' = printTree 3 example_store example_root ∧
    root' = (if decide (example_root = Some 0) then Some 3 else example_root).
Proof.
  assert (0 ∈ addrs example_shape) as H1 by (apply (bool_decide_unpack _); by vm_compute).
  assert (length (addrs example_shape) ≤ 3) as H2 by (vm_compute; lia).
  split; [split_and!; [apply example_tree|done|done|done]|].
  by apply (rotations_keep_inorder _ _ _ 0 3 3 example_tree H1 H2).
Defined.

(** C8: [insert] on the empty tree returns as root a fresh cell that
    holds the word, is BLACK, and has neither parent nor children; the
    tree prints as that single word. *)
Theorem insert_into_empty fuel h w :
  w ≠ ""%string →
  ∃ h', insert fuel h None w = Some (h', Some (length h)) ∧
        h' !! length h = Some (mkNode w "b" None None None) ∧
        printTree (S fuel) h' (Some (length h)) = Some [w].
Proof.
  intros _. rewrite insert_empty. eexists. split; [done|].
  assert ((h ++ [mkNode w "b" None None None; mkNode w "r" None None None]) !! length h
          = Some (mkNode w "b" None None None)) as Hl by (by rewrite list_lookup_middle).
  split; [done|].
  simpl. unfold getLeftChild, getRightChild, getWord, fld. rewrite Hl. simpl.
  by destruct fuel.
Qed.

Lemma insert_into_empty_witness :
  "x"%string ≠ ""%string ∧
  ∃ h', insert 0 [] None "x" = Some (h', Some 0) ∧
        h' !! 0 = Some (mkNode "x" "b" None None None) ∧
        printTree 1 h' (Some 0) = Some ["x"%string].
Proof.
  split; [done|]. by apply (insert_into_empty 0 [] "x").
Defined.

(** C9: [setColor] with a value that is neither r nor b leaves the
    store, and so the node's colour, as it was; with r or b the node's
    colour becomes that value. *)
Theorem setColor_valid_or_ignored h a c :
  a < length h →
  (c ≠ "r"%char → c ≠ "b"%char →
   setColor h (Some a) c = h ∧
   getColor (setColor h (Some a) c) (Some a) = getColor h (Some a)) ∧
  (c = "r"%char ∨ c = "b"%char →
   getColor (setColor h (Some a) c) (Some a) = c).
Proof.
  intros Ha. split.
  - intros Hr Hb. unfold setColor.
    rewrite (proj2 (Ascii.eqb_neq _ _) Hr), (proj2 (Ascii.eqb_neq _ _) Hb). done.
  - intros Hc. rewrite getColor_col. by apply col_setColor_eq.
Qed.

Lemma setColor_valid_or_ignored_witness :
  0 < length example_store ∧
  setColor example_store (Some 0) "x" = example_store ∧
  getColor (setColor example_store (Some 0) "r") (Some 0) = "r"%char.
Proof.
  assert (0 < length example_store) as H by (vm_compute; lia).
  split; [done|].
  split.
  - by apply (setColor_valid_or_ignored example_store 0 "x" H).
  - apply (setColor_valid_or_ignored example_store 0 "r" H). by left.
Defined.

(** C10: on a store built by insertions, [insert] returns a root that
    is not NULL and whose parent link is NULL; a rotation about the root
    returns the promoted child as the new root and leaves its parent
    link NULL. *)
Theorem insert_root_parent_null h root w fuel :
  reachable h root → w ≠ ""%string → length h ≤ fuel →
  (∃ h' root',
     insert fuel h root w = Some (h', root') ∧
     root' ≠ None ∧ getParent h' root' = None) ∧
  (∀ n m, root = Some n → getRightChild h root = Some m →
     ∃ h', leftRotate h root root = (h', Some m) ∧ getParent h' (Some m) = None) ∧
  (∀ n m, root = Some n → getLeftChild h root = Some m →
     ∃ h', rightRotate h root root = (h', Some m) ∧ getParent h' (Some m) = None).
Proof.
  intros Hr _ Hfuel. split_and!.
  - destruct (insert_reachable_spec h root w fuel Hr Hfuel)
      as (h' & root' & s & a & Hins & (Ht & _) & ->).
    exists h', (Some a). split_and!; try done. by eapply tree_root_parent.
  - intros n m -> Hm. apply reachable_inv in Hr as (s & Ht & _).
    destruct (leftRotate_tree h (Some n) s n m Ht) as (h' & root' & s' & Hrot & Ht' & _ & _ & ->);
      [|done|].
    { destruct Ht as (E & _). destruct s; [done|]. injection E as ->. simpl. elem_solver. }
    rewrite decide_True in * by done. exists h'. split; [done|].
    by eapply tree_root_parent.
  - intros n m -> Hm. apply reachable_inv in Hr as (s & Ht & _).
    destruct (rightRotate_tree h (Some n) s n m Ht) as (h' & root' & s' & Hrot & Ht' & _ & _ & ->);
      [|done|].
    { destruct Ht as (E & _). destruct s; [done|]. injection E as ->. simpl. elem_solver. }
    rewrite decide_True in * by done. exists h'. split; [done|].
    by eapply tree_root_parent.
Qed.

Lemma insert_root_parent_null_witness :
  (reachable example_store example_root ∧ "k"%string ≠ ""%string ∧
   length example_store ≤ 4) ∧
  ∃ h' root',
    insert 4 example_store example_root "k" = Some (h', root') ∧
    root' ≠ None ∧ getParent h' root' = None.
Proof.
  assert (length example_store ≤ 4) as H by (vm_compute; lia).
  split; [split_and!; [apply example_reachable|done|done]|].
  apply (insert_root_parent_null _ _ "k" 4 example_reachable); [done|exact H].
Defined.
(** * Further properties

    What follows concerns the parts of the program that the statements
    above do not reach, and the behaviour of [insert] and of the
    rotations as a caller sees it. *)

(** ** What [insert] and the rotations leave alone *)

Lemma same_words_refl h : same_words h h.
Proof. by split. Qed.

Lemma same_words_trans h1 h2 h3 : same_words h1 h2 → same_words h2 h3 → same_words h1 h3.
Proof. intros [L1 D1] [L2 D2]. split; [congruence|]. intros a. by rewrite D2. Qed.

Lemma same_data_words h h' : same_data h h' → same_words h h'.
Proof. intros [L D]. split; [done|]. intros a. apply D. Qed.

Lemma same_words_setColor h n c : same_words h (setColor h n c).
Proof. split; [apply length_setColor|]. intros a. apply key_setColor. Qed.

Lemma leftRotate_same_data h root n : same_data h (leftRotate h root n).1.
Proof.
  unfold leftRotate. repeat case_decide; simpl; same_data_tac.
Qed.

Lemma rightRotate_same_data h root n : same_data h (rightRotate h root n).1.
Proof.
  unfold rightRotate. repeat case_decide; simpl; same_data_tac.
Qed.

Lemma fixup_body_same_words h root p parent :
  same_words h (fixup_body h root p parent).1.1.
Proof.
  unfold fixup_body.
  repeat case_decide;
    repeat match goal with
    | |- context [leftRotate ?h ?r ?n] =>
        let H := fresh in
        pose proof (leftRotate_same_data h r n) as H;
        destruct (leftRotate h r n); simpl in H
    | |- context [rightRotate ?h ?r ?n] =>
        let H := fresh in
        pose proof (rightRotate_same_data h r n) as H;
        destruct (rightRotate h r n); simpl in H
    end; simpl;
    repeat match goal with
    | H : same_data _ ?x |- same_words _ ?x =>
        eapply same_words_trans; [|exact (same_data_words _ _ H)]; clear H
    | |- same_words _ (setColor _ _ _) =>
        eapply same_words_trans; [|apply same_words_setColor]
    end; apply same_words_refl.
Qed.

Lemma fixup_same_words fuel : ∀ h root p parent h' root',
  fixup fuel h root p parent = Some (h', root') → same_words h h'.
Proof.
  induction fuel as [|fuel IH]; intros h root p parent h' root';
    rewrite fixup_unfold; destruct (fixup_guard h root p parent); try done.
  - intros [= <- <-]. apply same_words_refl.
  - pose proof (fixup_body_same_words h root p parent) as Hb.
    destruct (fixup_body h root p parent) as [[h1 root1] p1]. simpl in Hb.
    intros Hf. eapply same_words_trans; [exact Hb|]. by eapply IH.
  - intros [= <- <-]. apply same_words_refl.
Qed.

Lemma getWord_lt h a : a < length h → getWord h (Some a) = Some (key h a).
Proof.
  intros Ha. apply lookup_lt_is_Some_2 in Ha as [x Hx].
  apply (getWord_key h a (links x)). unfold lk. by rewrite Hx.
Qed.

Lemma insert_store fuel h root w h' root' :
  insert fuel h root w = Some (h', root') →
  ∃ d h0, descend fuel h0 w root None 0 = Some d ∧
    h0 = (if decide (root = None) then h ++ [mkNode w "r" None None None] else h) ∧
    match d with
    | Met => h' = h0
    | Fell parent _ => same_words (h0 ++ [mkNode w "r" parent None None]) h'
    end.
Proof.
  unfold insert.
  assert ((if decide (root = None) then makeNode h w None else (h, root)) =
          ((if decide (root = None) then h ++ [mkNode w "r" None None None] else h),
           (if decide (root = None) then Some (length h) else root))) as ->.
  { case_decide; [apply makeNode_eq|done]. }
  set (h0 := if decide (root = None) then _ else h).
  set (root0 := if decide (root = None) then _ else root).
  destruct (descend fuel h0 w root None 0) as [[|parent cmp]|] eqn:Hd; [| |done].
  { intros [= <- <-]. by exists Met, h0. }
  intros Hi. exists (Fell parent cmp), h0. split_and!; [done..|].
  rewrite !makeNode_eq in Hi.
  set (h1 := h0 ++ [mkNode w "r" parent None None]) in *.
  destruct (cmp <? 0)%Z.
  - destruct (fixup fuel _ root0 _ parent) as [[h2 root2]|] eqn:Hf; [|done].
    injection Hi as <- <-. apply fixup_same_words in Hf.
    eapply same_words_trans; [|apply same_words_setColor].
    eapply same_words_trans; [|exact Hf].
    apply same_data_words, same_data_setLeftChild.
  - destruct (fixup fuel _ root0 _ parent) as [[h2 root2]|] eqn:Hf; [|done].
    injection Hi as <- <-. apply fixup_same_words in Hf.
    eapply same_words_trans; [|apply same_words_setColor].
    eapply same_words_trans; [|exact Hf].
    apply same_data_words, same_data_setRightChild.
Qed.

(** X1: whatever the store and the root, a call of [insert] that
    returns adds at most two cells to the store and removes none; every
    cell that was there keeps its word, and every cell that was added
    holds the inserted word. *)
Theorem insert_keeps_words fuel h root w h' root' :
  insert fuel h root w = Some (h', root') →
  length h ≤ length h' ≤ length h + 2 ∧
  (∀ a, a < length h → getWord h' (Some a) = getWord h (Some a)) ∧
  (∀ a, length h ≤ a < length h' → getWord h' (Some a) = Some w).
Proof.
  intros (d & h0 & _ & Hh0 & Hd)%insert_store.
  assert (length h ≤ length h0 ≤ length h + 1 ∧
          (∀ a, a < length h → key h0 a = key h a) ∧
          (∀ a, length h ≤ a < length h0 → key h0 a = w)) as (L0 & K0 & N0).
  { subst h0. case_decide.
    - rewrite length_app. simpl. split; [lia|split].
      + intros a Ha. by apply key_snoc_lt.
      + intros a Ha. assert (a = length h) as -> by lia. by rewrite key_snoc_eq.
    - split; [lia|split; [done|lia]]. }
  destruct d as [|parent cmp].
  - subst h'. split; [lia|split].
    + intros a Ha. rewrite !getWord_lt by lia. f_equal. by apply K0.
    + intros a Ha. rewrite getWord_lt by lia. f_equal. by apply N0.
  - destruct Hd as (L & K). rewrite length_app in L. simpl in L.
    split; [lia|split].
    + intros a Ha. rewrite !getWord_lt by lia. f_equal.
      rewrite K, key_snoc_lt by lia. by apply K0.
    + intros a Ha. rewrite getWord_lt by lia. f_equal. rewrite K.
      destruct (decide (a = length h0)) as [->|].
      * by rewrite key_snoc_eq.
      * rewrite key_snoc_lt by lia. apply N0. lia.
Qed.

Lemma insert_keeps_words_witness :
  ∃ h' root',
    insert 4 example_store example_root "k" = Some (h', root') ∧
    length example_store ≤ length h' ≤ length example_store + 2 ∧
    (∀ a, a < length example_store →
          getWord h' (Some a) = getWord example_store (Some a)) ∧
    (∀ a, length example_store ≤ a < length h' → getWord h' (Some a) = Some "k"%string).
Proof.
  eexists _, _.
  assert (insert 4 example_store example_root "k" = Some (_, _)) as H
    by (vm_compute; reflexivity).
  split; [exact H|]. exact (insert_keeps_words _ _ _ _ _ _ H).
Defined.

Lemma same_data_get h h' p :
  same_data h h' → getWord h' p = getWord h p ∧ getColor h' p = getColor h p.
Proof.
  intros [L D]. destruct p as [a|]; [|done]. simpl.
  destruct (D a) as [K C]. split; [|done].
  unfold key, fld in K. destruct (decide (a < length h)) as [Ha|Ha].
  - destruct (lookup_lt_is_Some_2 h a Ha) as [x Hx].
    destruct (lookup_lt_is_Some_2 h' a ltac:(lia)) as [y Hy].
    rewrite Hx, Hy in K. simpl in K. unfold getWord. rewrite Hx, Hy. simpl.
    by f_equal.
  - unfold getWord. by rewrite (lookup_ge_None_2 h a), (lookup_ge_None_2 h' a) by lia.
Qed.

(** X2: a rotation writes links only.  Whatever the store, the root
    and the node handed to [leftRotate] or [rightRotate] (a NULL
    pointer or a node without the child to be promoted included), the
    store keeps its size and every cell keeps its word and its
    colour. *)
Theorem rotations_keep_words_and_colours h root n p :
  (length (leftRotate h root n).1 = length h ∧
   getWord (leftRotate h root n).1 p = getWord h p ∧
   getColor (leftRotate h root n).1 p = getColor h p) ∧
  (length (rightRotate h root n).1 = length h ∧
   getWord (rightRotate h root n).1 p = getWord h p ∧
   getColor (rightRotate h root n).1 p = getColor h p).
Proof.
  pose proof (leftRotate_same_data h root n) as Hl.
  pose proof (rightRotate_same_data h root n) as Hr.
  split.
  - split; [apply Hl|]. by apply same_data_get.
  - split; [apply Hr|]. by apply same_data_get.
Qed.

(** ** How many cells [insert] allocates *)

Lemma insert_length fuel h root s w h' root' :
  inv h root s → length (addrs s) ≤ fuel →
  insert fuel h root w = Some (h', root') →
  length h' = length h + (if decide (root = None) then 2
                          else if decide (w ∈ keys h s) then 0 else 1).
Proof.
  intros Hinv Hfuel Hins. case_decide as Hroot.
  - subst root. rewrite insert_empty in Hins. injection Hins as <- <-.
    rewrite length_app. simpl. lia.
  - destruct Hinv as ((Hr & Hrep & ND) & Hord & _). case_decide as Hw.
    + rewrite (insert_dup fuel h root s w) in Hins by done.
      injection Hins as <- <-. lia.
    + apply insert_store in Hins as (d & h0 & Hd & -> & H).
      rewrite decide_False in * by done. subst root.
      destruct (descend_fell h w s [] fuel None 0 Hrep Hord Hw Hfuel)
        as (c & p & cmp & Hd' & _); [done|by split; intros ? ?%elem_of_nil|].
      rewrite Hd' in Hd. injection Hd as <-.
      destruct H as [L _]. rewrite length_app in L. simpl in L. lia.
Qed.

(** The cells of a store built by insertions: the tree takes all of
    them but the one at address 1, which the first call allocates at
    line 253 and links nowhere. *)
Lemma reachable_cells h root :
  reachable h root →
  ∃ s, inv h root s ∧ (root = None → h = []) ∧ (root ≠ None → 2 ≤ length h) ∧
       (∀ a, a ∈ addrs s ↔ a < length h ∧ a ≠ 1).
Proof.
  induction 1 as [|fuel h root w h' root' _ (s & Hinv & Hnil & Hlen & Hcells) _ Hins].
  - exists Leaf. split; [apply inv_empty|]. split_and!; try done.
    intros a. simpl. rewrite elem_of_nil. lia.
  - destruct (decide (w ∈ keys h s)) as [Hw|Hw].
    + destruct Hinv as (Ht & Hord & Hb).
      pose proof (insert_dup (length (addrs s)) h root s w Ht Hord Hw (le_n _)) as Hins1.
      pose proof (insert_agree _ _ _ _ _ _ _ Hins Hins1) as [= -> ->].
      exists s. split_and!; try done.
    + destruct (insert_new (length (addrs s)) h root s w Hinv Hw (le_n _))
        as (h1 & root1 & s1 & Hins1 & Hinv1 & Hlen1 & _ & _ & Haddrs).
      pose proof (insert_agree _ _ _ _ _ _ _ Hins Hins1) as [= -> ->].
      pose proof (insert_length _ _ _ _ _ _ _ Hinv (le_n _) Hins1) as L.
      rewrite (decide_False (P := w ∈ keys h s)) in L by done.
      exists s1. split; [done|].
      assert (root1 ≠ None) as Hroot1.
      { destruct Hinv1 as ((-> & _) & _). destruct s1; [|done].
        simpl in Hlen1. lia. }
      destruct (decide (root = None)) as [Hroot|Hroot].
      * rewrite (Hnil Hroot) in *. simpl in *. split_and!; [done|lia|].
        intros a. rewrite Haddrs, Hcells. simpl. lia.
      * specialize (Hlen Hroot). split_and!; [done|lia|].
        intros a. rewrite Haddrs, Hcells. lia.
Qed.

Lemma reachable_print h root s fuel :
  inv h root s → length h ≤ fuel → printTree fuel h root = Some (keys h s).
Proof.
  intros (Ht & _) Hfuel. pose proof (tree_size _ _ _ Ht) as Hs.
  destruct Ht as (-> & Hrep & _). apply (printTree_rep h None); [done|lia].
Qed.

(** X3: on a store built by insertions, [insert] allocates two cells
    when the tree is empty, none when the tree holds the word, and one
    otherwise. *)
Theorem insert_allocates h root w fuel out :
  reachable h root → length h ≤ fuel → printTree fuel h root = Some out →
  ∃ h' root',
    insert fuel h root w = Some (h', root') ∧
    length h' = length h + (if decide (root = None) then 2
                            else if decide (w ∈ out) then 0 else 1).
Proof.
  intros [s Hinv]%reachable_inv Hfuel Hout.
  rewrite (reachable_print h root s) in Hout by done. injection Hout as <-.
  pose proof Hinv as (Ht%tree_size & _).
  destruct (insert_step fuel h root s w Hinv) as (h' & root' & s' & Hins & _); [lia|].
  exists h', root'. split; [done|].
  apply (insert_length fuel h root s w h' root'); [done|lia|done].
Qed.

Lemma insert_allocates_witness :
  (reachable example_store example_root ∧ length example_store ≤ 4 ∧
   printTree 4 example_store example_root = Some ["d"; "m"; "t"]%string) ∧
  ∃ h' root',
    insert 4 example_store example_root "k" = Some (h', root') ∧
    length h' = length example_store +
                (if decide (example_root = None) then 2
                 else if decide ("k"%string ∈ ["d"; "m"; "t"]%string) then 0 else 1).
Proof.
  assert (length example_store ≤ 4) as H by (vm_compute; lia).
  assert (printTree 4 example_store example_root = Some ["d"; "m"; "t"]%string) as H'
    by (vm_compute; reflexivity).
  split; [split_and!; [apply example_reachable|exact H|exact H']|].
  exact (insert_allocates _ _ "k" 4 _ example_reachable H H').
Defined.

(** ** Insertion followed by a traversal *)

(** X4: on a store built by insertions, [insert] returns, and the
    traversal of the tree it returns ascends strictly and holds the
    inserted word together with the words printed before the call, and
    no other; it is longer by one when the word is new and as long as
    before when it is not. *)
Theorem insert_then_print h root w fuel :
  reachable h root → length h ≤ fuel →
  ∃ out h' root' out',
    printTree fuel h root = Some out ∧
    insert fuel h root w = Some (h', root') ∧
    printTree (S fuel) h' root' = Some out' ∧
    StronglySorted word_lt out' ∧
    (∀ x, x ∈ out' ↔ x = w ∨ x ∈ out) ∧
    length out' = (if decide (w ∈ out) then length out else S (length out)).
Proof.
  intros [s Hinv]%reachable_inv Hfuel.
  pose proof Hinv as (Ht & Hord & _). pose proof (tree_size _ _ _ Ht) as Hs.
  exists (keys h s). rewrite (reachable_print h root s) by done.
  destruct (decide (w ∈ keys h s)) as [Hw|Hw].
  - exists h, root, (keys h s). split_and!; try done.
    + apply (insert_dup fuel h root s w); [done..|lia].
    + apply (reachable_print h root s); [done|lia].
    + intros x. split; [auto|]. by intros [->|?].
  - destruct (insert_new fuel h root s w Hinv Hw)
      as (h' & root' & s' & Hins & Hinv' & Hlen & _ & Hkeys & _); [lia|].
    exists h', root', (keys h' s'). split_and!; try done.
    + destruct Hinv' as ((-> & Hrep' & _) & _).
      apply (printTree_rep h' None); [done|lia].
    + by destruct Hinv' as (_ & ? & _).
    + unfold keys. by rewrite !length_fmap.
Qed.

Lemma insert_then_print_witness :
  (reachable example_store example_root ∧ length example_store ≤ 4) ∧
  ∃ out h' root' out',
    printTree 4 example_store example_root = Some out ∧
    insert 4 example_store example_root "k" = Some (h', root') ∧
    printTree 5 h' root' = Some out' ∧
    StronglySorted word_lt out' ∧
    (∀ x, x ∈ out' ↔ x = "k"%string ∨ x ∈ out) ∧
    length out' = (if decide ("k"%string ∈ out) then length out else S (length out)).
Proof.
  assert (length example_store ≤ 4) as H by (vm_compute; lia).
  split; [split; [apply example_reachable|exact H]|].
  exact (insert_then_print _ _ "k" 4 example_reachable H).
Defined.

(** ** The repair loop *)

Lemma col_same_data h h' a : same_data h h' → col h' a = col h a.
Proof. intros [_ D]. apply D. Qed.

Lemma col_setColor_black h u a :
  a < length h → col h a = "b"%char → col (setColor h u "b") a = "b"%char.
Proof.
  intros Ha Hb. destruct (decide (u = Some a)) as [->|Hu].
  - apply col_setColor_eq; [by right|done].
  - by rewrite col_setColor_ne.
Qed.

Lemma fixup_body_parent_black h root p a :
  a < length h → getGrandparent h p ≠ Some a →
  col (fixup_body h root p (Some a)).1.1 a = "b"%char.
Proof.
  intros Ha Hg. unfold fixup_body.
  repeat case_decide;
    repeat match goal with
    | |- context [leftRotate ?h ?r ?n] =>
        let H := fresh "SD" in
        pose proof (leftRotate_same_data h r n) as H;
        destruct (leftRotate h r n); simpl in H
    | |- context [rightRotate ?h ?r ?n] =>
        let H := fresh "SD" in
        pose proof (rightRotate_same_data h r n) as H;
        destruct (rightRotate h r n); simpl in H
    end; simpl;
    repeat match goal with
    | H : same_data _ ?x |- col ?x _ = _ => rewrite (col_same_data _ _ _ H)
    end;
    rewrite ?(col_setColor_ne _ (getGrandparent h p)) by done.
  all: try (apply col_setColor_black; [by rewrite length_setColor|]).
  all: apply col_setColor_eq; [by right|];
    repeat match goal with H : same_data _ _ |- _ => destruct H as [-> _] end; done.
Qed.

(** X5: the loop of lines 258-295 never runs its body twice.  In any
    store, if the loop is entered for a node whose grandparent is not
    the cell [parent] itself, then after one turn the guard is false,
    whatever the colours and links of the tree are by then: the guard
    reads the colour of the variable [parent], which every branch of
    the body paints BLACK and which no branch reassigns.  So the loop
    returns after exactly one turn. *)
Theorem fixup_runs_once h root p parent fuel :
  fixup_guard h root p parent = true → getGrandparent h p ≠ parent →
  ∃ h' root' p',
    fixup_body h root p parent = (h', root', p') ∧
    getColor h' parent = "b"%char ∧
    fixup_guard h' root' p' parent = false ∧
    fixup (S fuel) h root p parent = Some (h', root').
Proof.
  intros Hguard Hg.
  destruct (fixup_body h root p parent) as [[h' root'] p'] eqn:Hbody.
  exists h', root', p'. split; [done|].
  assert (getColor h' parent = "b"%char) as Hblack.
  { apply andb_prop in Hguard as [_ Hred%bool_decide_eq_true].
    destruct parent as [a|]; [|done].
    assert (a < length h) as Ha.
    { apply lookup_lt_is_Some. rewrite getColor_col in Hred. unfold col, fld in Hred.
      destruct (h !! a); [done|]. discriminate Hred. }
    pose proof (fixup_body_parent_black h root p a Ha Hg) as H.
    by rewrite Hbody in H. }
  assert (fixup_guard h' root' p' parent = false) as Hexit.
  { unfold fixup_guard. rewrite Hblack.
    rewrite (bool_decide_eq_false_2 ("b"%char = "r"%char)) by done.
    apply andb_false_r. }
  split; [done|]. split; [done|].
  rewrite fixup_unfold, Hguard, Hbody. by apply fixup_exit.
Qed.

Lemma fixup_runs_once_witness :
  (fixup_guard (setLeftChild (makeNode example_store "a" (Some 2)).1 (Some 2) (Some 4))
     example_root (Some 4) (Some 2) = true ∧
   getGrandparent (setLeftChild (makeNode example_store "a" (Some 2)).1 (Some 2) (Some 4))
     (Some 4) ≠ Some 2) ∧
  ∃ h' root' p',
    fixup_body (setLeftChild (makeNode example_store "a" (Some 2)).1 (Some 2) (Some 4))
      example_root (Some 4) (Some 2) = (h', root', p') ∧
    getColor h' (Some 2) = "b"%char ∧
    fixup_guard h' root' p' (Some 2) = false ∧
    fixup 1 (setLeftChild (makeNode example_store "a" (Some 2)).1 (Some 2) (Some 4))
      example_root (Some 4) (Some 2) = Some (h', root').
Proof.
  assert (fixup_guard (setLeftChild (makeNode example_store "a" (Some 2)).1 (Some 2) (Some 4))
            example_root (Some 4) (Some 2) = true) as H1 by (by vm_compute).
  assert (getGrandparent
            (setLeftChild (makeNode example_store "a" (Some 2)).1 (Some 2) (Some 4))
            (Some 4) ≠ Some 2) as H2 by (by vm_compute).
  split; [by split|].
  exact (fixup_runs_once _ _ _ _ 0 H1 H2).
Defined.

(** ** The colours of the cells

    A property of stores that survives a write of a colour, a write of
    links and the allocation of a red cell survives [insert]. *)

Section Preserved.
Variable P : heap → Prop.
Hypothesis P_setColor : ∀ h n c, P h → P (setColor h n c).
Hypothesis P_links : ∀ h h', same_data h h' → P h → P h'.
Hypothesis P_alloc : ∀ h w p, P h → P (h ++ [mkNode w "r" p None None]).

Lemma fixup_body_preserves h root p parent :
  P h → P (fixup_body h root p parent).1.1.
Proof.
  intros HP. unfold fixup_body.
  repeat case_decide;
    repeat match goal with
    | |- context [leftRotate ?h ?r ?n] =>
        let H := fresh "SD" in
        pose proof (leftRotate_same_data h r n) as H;
        destruct (leftRotate h r n); simpl in H
    | |- context [rightRotate ?h ?r ?n] =>
        let H := fresh "SD" in
        pose proof (rightRotate_same_data h r n) as H;
        destruct (rightRotate h r n); simpl in H
    end; simpl;
    repeat first
      [ assumption
      | apply P_setColor
      | match goal with H : same_data _ ?x |- P ?x => apply (P_links _ _ H); clear H end ].
Qed.

Lemma fixup_preserves fuel : ∀ h root p parent h' root',
  P h → fixup fuel h root p parent = Some (h', root') → P h'.
Proof.
  induction fuel as [|fuel IH]; intros h root p parent h' root' HP;
    rewrite fixup_unfold; destruct (fixup_guard h root p parent); try done.
  - by intros [= <- <-].
  - pose proof (fixup_body_preserves h root p parent HP) as Hb.
    destruct (fixup_body h root p parent) as [[h1 root1] p1]. simpl in Hb.
    by apply IH.
  - by intros [= <- <-].
Qed.

Lemma insert_preserves fuel h root w h' root' :
  P h → insert fuel h root w = Some (h', root') → P h'.
Proof.
  intros HP. unfold insert.
  assert ((if decide (root = None) then makeNode h w None else (h, root)) =
          ((if decide (root = None) then h ++ [mkNode w "r" None None None] else h),
           (if decide (root = None) then Some (length h) else root))) as ->.
  { case_decide; [apply makeNode_eq|done]. }
  set (h0 := if decide (root = None) then _ else h).
  set (root0 := if decide (root = None) then _ else root).
  assert (P h0) as HP0 by (subst h0; case_decide; auto).
  destruct (descend fuel h0 w root None 0) as [[|parent cmp]|]; [| |done].
  { by intros [= <- <-]. }
  rewrite !makeNode_eq.
  assert (P (h0 ++ [mkNode w "r" parent None None])) as HP1 by auto.
  destruct (cmp <? 0)%Z.
  - destruct (fixup fuel _ root0 _ parent) as [[h2 root2]|] eqn:Hf; [|done].
    intros [= <- <-]. apply P_setColor. eapply fixup_preserves; [|exact Hf].
    eapply P_links; [apply same_data_setLeftChild|done].
  - destruct (fixup fuel _ root0 _ parent) as [[h2 root2]|] eqn:Hf; [|done].
    intros [= <- <-]. apply P_setColor. eapply fixup_preserves; [|exact Hf].
    eapply P_links; [apply same_data_setRightChild|done].
Qed.
End Preserved.

Lemma col_snoc_eq h x : col (h ++ [x]) (length h) = color x.
Proof. unfold col, fld. by rewrite list_lookup_middle. Qed.

Lemma valid_colours_setColor h n c : valid_colours h → valid_colours (setColor h n c).
Proof.
  intros Hv a. rewrite length_setColor, getColor_col. intros Ha.
  destruct (decide (n = Some a)) as [->|Hn].
  - destruct (decide (c = "r"%char ∨ c = "b"%char)) as [Hc|Hc].
    + by rewrite col_setColor_eq.
    + unfold setColor.
      replace (Ascii.eqb c "r" || Ascii.eqb c "b")%bool with false; [by apply Hv|].
      symmetry. apply orb_false_intro; apply Ascii.eqb_neq; tauto.
  - rewrite col_setColor_ne by done. by apply Hv.
Qed.

Lemma valid_colours_same_data h h' : same_data h h' → valid_colours h → valid_colours h'.
Proof.
  intros [L D] Hv a. rewrite L, getColor_col. intros Ha.
  destruct (D a) as [_ ->]. by apply Hv.
Qed.

Lemma valid_colours_alloc h w p :
  valid_colours h → valid_colours (h ++ [mkNode w "r" p None None]).
Proof.
  intros Hv a. rewrite length_app, getColor_col. simpl. intros Ha.
  destruct (decide (a = length h)) as [->|Hne].
  - rewrite col_snoc_eq. by left.
  - rewrite col_snoc_lt by lia. apply Hv. lia.
Qed.

Lemma insert_valid_colours fuel h root w h' root' :
  valid_colours h → insert fuel h root w = Some (h', root') → valid_colours h'.
Proof.
  intros Hv Hins.
  apply (insert_preserves valid_colours) with fuel h root w root'; try done.
  - apply valid_colours_setColor.
  - apply valid_colours_same_data.
  - apply valid_colours_alloc.
Qed.

Lemma reachable_valid_colours h root : reachable h root → valid_colours h.
Proof.
  induction 1 as [|fuel h root w h' root' _ IH _ Hins].
  - intros a Ha. simpl in Ha. lia.
  - by eapply insert_valid_colours.
Qed.

(** X6: [insert] keeps the colours valid.  If every cell of the store
    is RED or BLACK before a call of [insert], whatever the store and
    the root are, then so is every cell of the store after it, the
    cells it allocates included.  So every cell of a store built by
    insertions is RED or BLACK, before and after a further call. *)
Theorem insert_keeps_colours_valid fuel h root w h' root' :
  insert fuel h root w = Some (h', root') →
  (valid_colours h → valid_colours h') ∧
  (reachable h root → valid_colours h ∧ valid_colours h').
Proof.
  intros Hins. split.
  - intros Hv. by eapply insert_valid_colours.
  - intros Hv%reachable_valid_colours. split; [done|]. by eapply insert_valid_colours.
Qed.

Lemma insert_keeps_colours_valid_witness :
  ∃ h' root',
    insert 4 example_store example_root "k" = Some (h', root') ∧
    (valid_colours example_store → valid_colours h') ∧
    (reachable example_store example_root →
     valid_colours example_store ∧ valid_colours h').
Proof.
  eexists _, _.
  assert (insert 4 example_store example_root "k" = Some (_, _)) as H
    by (vm_compute; reflexivity).
  split; [exact H|]. exact (insert_keeps_colours_valid _ _ _ _ _ _ H).
Defined.

(** ** A rotation and its mirror image *)

Lemma leftRotate_frame h root n m b a :
  getRightChild h (Some n) = Some m → getLeftChild h (Some m) = b →
  n ≠ m → b ≠ Some n →
  a ≠ n → a ≠ m → b ≠ Some a → getParent h (Some n) ≠ Some a →
  (leftRotate h root (Some n)).1 !! a = h !! a.
Proof.
  intros Hm Hb Hnm Hbn Han Ham Hba Hpa.
  rewrite (leftRotate_eq h root n m b) by done. cbn zeta. simpl fst.
  unfold setParent, setLeftChild, setRightChild.
  destruct (getParent h (Some n)) as [pn|], b as [b'|]; repeat case_decide;
    rewrite ?list_lookup_alter_ne by congruence; done.
Qed.

Lemma rightRotate_frame h root n m b a :
  getLeftChild h (Some n) = Some m → getRightChild h (Some m) = b →
  n ≠ m → b ≠ Some n →
  a ≠ n → a ≠ m → b ≠ Some a → getParent h (Some n) ≠ Some a →
  (rightRotate h root (Some n)).1 !! a = h !! a.
Proof.
  intros Hm Hb Hnm Hbn Han Ham Hba Hpa.
  rewrite (rightRotate_eq h root n m b) by done. cbn zeta. simpl fst.
  unfold setParent, setLeftChild, setRightChild.
  destruct (getParent h (Some n)) as [pn|], b as [b'|]; repeat case_decide;
    rewrite ?list_lookup_alter_ne by congruence; done.
Qed.

Lemma rep_lk_eq h h' s a : ∀ par,
  rep h par s → rep h' par s → a ∈ addrs s → lk h' a = lk h a.
Proof.
  induction s as [|l IHl x r IHr]; intros par; simpl.
  - by intros _ _ ?%elem_of_nil.
  - intros (Hx & Hl & Hr) (Hx' & Hl' & Hr').
    rewrite elem_of_app, elem_of_cons. intros [?|[->|?]]; [eauto|congruence|eauto].
Qed.

Lemma cell_eq (x y : node) :
  links x = links y → word x = word y → color x = color y → x = y.
Proof. destruct x, y; unfold links; simpl. congruence. Qed.

(** Two stores that hold the same tree with the same words and colours,
    and agree outside of it, are equal. *)
Lemma store_eq h h' s :
  rep h None s → rep h' None s → same_data h h' →
  (∀ a, a ∉ addrs s → h' !! a = h !! a) → h' = h.
Proof.
  intros Hrep Hrep' [L D] Hout. apply list_eq. intros a.
  destruct (decide (a ∈ addrs s)) as [Ha|Ha]; [|by apply Hout].
  pose proof (rep_lk_eq h h' s a None Hrep Hrep' Ha) as Hlk.
  destruct (D a) as [K C].
  destruct (rep_lookup h None s a Hrep Ha) as [x Hx].
  destruct (rep_lookup h' None s a Hrep' Ha) as [y Hy].
  unfold lk, key, col, fld in *. rewrite Hx, Hy in *. simpl in *.
  f_equal. apply cell_eq; congruence.
Qed.

Lemma up_in c a : up c = Some a → a ∈ lefts c ++ rights c.
Proof. destruct c as [|f c]; [done|]. intros [= <-]. apply at_frame_in. Qed.

Lemma rotate_left_right h c A n B m C :
  rep h None (plug c (Node A n (Node B m C))) →
  NoDup (addrs (plug c (Node A n (Node B m C)))) →
  ∃ h' root',
    leftRotate h (root_of (plug c (Node A n (Node B m C)))) (Some n) = (h', root') ∧
    rightRotate h' root' (Some m) = (h, root_of (plug c (Node A n (Node B m C)))).
Proof.
  intros Hrep ND.
  destruct (leftRotate_plug h c A n B m C Hrep ND) as (h1 & Hrot1 & Hrep1 & SD1).
  assert (addrs (plug c (Node (Node A n B) m C)) = addrs (plug c (Node A n (Node B m C))))
    as Haddrs.
  { rewrite !addrs_plug. simpl. repeat (rewrite <- !app_assoc; simpl). done. }
  assert (NoDup (addrs (plug c (Node (Node A n B) m C)))) as ND1 by (by rewrite Haddrs).
  destruct (rightRotate_plug h1 c A n B m C Hrep1 ND1) as (h2 & Hrot2 & Hrep2 & SD2).
  exists h1, (root_of (plug c (Node (Node A n B) m C))). split; [done|].
  rewrite Hrot2. f_equal.
  apply (store_eq h h2 (plug c (Node A n (Node B m C)))); try done.
  { by eapply same_data_trans. }
  intros a Ha.
  pose proof Hrep as (Hc & Hn & HA & Hm & HB & HC)%rep_plug.
  pose proof Hrep1 as (Hc1 & Hm1 & (Hn1 & HA1 & HB1) & HC1)%rep_plug.
  rewrite addrs_plug in ND, Ha. simpl in ND, Ha.
  distinct [n; m].
  assert (a ≠ n ∧ a ≠ m ∧ root_of B ≠ Some a ∧ up c ≠ Some a ∧ root_of B ≠ Some n ∧
          root_of B ≠ Some m) as (Han & Ham & HBa & Hca & HBn & HBm).
  { split_and!.
    - intros ->. apply Ha. elem_solver.
    - intros ->. apply Ha. elem_solver.
    - intros E%root_of_in. apply Ha. elem_solver.
    - intros E%up_in. apply Ha. elem_solver.
    - intros E%root_of_in. by apart [n] E.
    - intros E%root_of_in. by apart [m] E. }
  transitivity (h1 !! a).
  - replace h2 with (rightRotate h1 (root_of (plug c (Node (Node A n B) m C))) (Some m)).1
      by (by rewrite Hrot2).
    apply (rightRotate_frame _ _ m n (root_of B)); try done; try congruence.
    + by rewrite getLeftChild_lk, Hm1.
    + by rewrite getRightChild_lk, Hn1.
    + by rewrite getParent_lk, Hm1.
  - replace h1 with (leftRotate h (root_of (plug c (Node A n (Node B m C)))) (Some n)).1
      by (by rewrite Hrot1).
    apply (leftRotate_frame _ _ n m (root_of B)); try done.
    + by rewrite getRightChild_lk, Hn.
    + by rewrite getLeftChild_lk, Hm.
    + by rewrite getParent_lk, Hn.
Qed.

Lemma rotate_right_left h c A m B n C :
  rep h None (plug c (Node (Node A m B) n C)) →
  NoDup (addrs (plug c (Node (Node A m B) n C))) →
  ∃ h' root',
    rightRotate h (root_of (plug c (Node (Node A m B) n C))) (Some n) = (h', root') ∧
    leftRotate h' root' (Some m) = (h, root_of (plug c (Node (Node A m B) n C))).
Proof.
  intros Hrep ND.
  destruct (rightRotate_plug h c A m B n C Hrep ND) as (h1 & Hrot1 & Hrep1 & SD1).
  assert (addrs (plug c (Node A m (Node B n C))) = addrs (plug c (Node (Node A m B) n C)))
    as Haddrs.
  { rewrite !addrs_plug. simpl. repeat (rewrite <- !app_assoc; simpl). done. }
  assert (NoDup (addrs (plug c (Node A m (Node B n C))))) as ND1 by (by rewrite Haddrs).
  destruct (leftRotate_plug h1 c A m B n C Hrep1 ND1) as (h2 & Hrot2 & Hrep2 & SD2).
  exists h1, (root_of (plug c (Node A m (Node B n C)))). split; [done|].
  rewrite Hrot2. f_equal.
  apply (store_eq h h2 (plug c (Node (Node A m B) n C))); try done.
  { by eapply same_data_trans. }
  intros a Ha.
  pose proof Hrep as (Hc & Hn & (Hm & HA & HB) & HC)%rep_plug.
  pose proof Hrep1 as (Hc1 & Hm1 & HA1 & Hn1 & HB1 & HC1)%rep_plug.
  rewrite addrs_plug in ND, Ha. simpl in ND, Ha.
  distinct [n; m].
  assert (a ≠ n ∧ a ≠ m ∧ root_of B ≠ Some a ∧ up c ≠ Some a ∧ root_of B ≠ Some n ∧
          root_of B ≠ Some m) as (Han & Ham & HBa & Hca & HBn & HBm).
  { split_and!.
    - intros ->. apply Ha. elem_solver.
    - intros ->. apply Ha. elem_solver.
    - intros E%root_of_in. apply Ha. elem_solver.
    - intros E%up_in. apply Ha. elem_solver.
    - intros E%root_of_in. by apart [n] E.
    - intros E%root_of_in. by apart [m] E. }
  transitivity (h1 !! a).
  - replace h2 with (leftRotate h1 (root_of (plug c (Node A m (Node B n C)))) (Some m)).1
      by (by rewrite Hrot2).
    apply (leftRotate_frame _ _ m n (root_of B)); try done; try congruence.
    + by rewrite getRightChild_lk, Hm1.
    + by rewrite getLeftChild_lk, Hn1.
    + by rewrite getParent_lk, Hm1.
  - replace h1 with (rightRotate h (root_of (plug c (Node (Node A m B) n C))) (Some n)).1
      by (by rewrite Hrot1).
    apply (rightRotate_frame _ _ n m (root_of B)); try done.
    + by rewrite getLeftChild_lk, Hn.
    + by rewrite getRightChild_lk, Hm.
    + by rewrite getParent_lk, Hn.
Qed.

(** X7: in any tree, rotating left about a node [n] with right child
    [m] and then right about [m] gives back the very store and root
    the first rotation started from; likewise rotating right about a
    node [n] with left child [m] and then left about [m]. *)
Theorem rotations_are_inverse h root s n m :
  tree h root s → n ∈ addrs s →
  (getRightChild h (Some n) = Some m →
   ∃ h' root', leftRotate h root (Some n) = (h', root') ∧
               rightRotate h' root' (Some m) = (h, root)) ∧
  (getLeftChild h (Some n) = Some m →
   ∃ h' root', rightRotate h root (Some n) = (h', root') ∧
               leftRotate h' root' (Some m) = (h, root)).
Proof.
  intros Ht Hn. split; intros Hm.
  - destruct (tree_split_right h root s n m Ht Hn Hm) as (c & A & B & C & ->).
    destruct Ht as (-> & Hrep & ND). by apply rotate_left_right.
  - destruct (tree_split_left h root s n m Ht Hn Hm) as (c & A & B & C & ->).
    destruct Ht as (-> & Hrep & ND). by apply rotate_right_left.
Qed.

Lemma rotations_are_inverse_witness :
  (tree example_store example_root example_shape ∧ 0 ∈ addrs example_shape ∧
   getRightChild example_store (Some 0) = Some 3) ∧
  ∃ h' root', leftRotate example_store example_root (Some 0) = (h', root') ∧
              rightRotate h' root' (Some 3) = (example_store, example_root).
Proof.
  assert (0 ∈ addrs example_shape) as H1 by (apply (bool_decide_unpack _); by vm_compute).
  split; [split_and!; [apply example_tree|exact H1|done]|].
  by apply (rotations_are_inverse _ _ _ 0 3 example_tree H1).
Defined.

(** ** The tree as the accessors show it *)

Lemma below_in h t : ∀ par b c,
  rep h par t → root_of t = Some b → below h b c → c ∈ addrs t.
Proof.
  intros par b c Hrep Hb Hbc. revert t par Hrep Hb.
  induction Hbc as [a|a b c Hab _ IH|a b c Hab _ IH]; intros t par Hrep Ha.
  - by apply root_of_in.
  - destruct t as [|l x r]; [done|]. injection Ha as ->.
    destruct Hrep as (Hx & Hl & Hr).
    rewrite getLeftChild_lk, Hx in Hab. simpl in *.
    apply elem_of_app. left. by apply (IH l (Some a)).
  - destruct t as [|l x r]; [done|]. injection Ha as ->.
    destruct Hrep as (Hx & Hl & Hr).
    rewrite getRightChild_lk, Hx in Hab. simpl in *.
    apply elem_of_app. right. apply elem_of_cons. right. by apply (IH r (Some a)).
Qed.

Lemma ordered_plug h c t : ordered h (plug c t) → ordered h t.
Proof.
  unfold ordered, keys. rewrite addrs_plug, !fmap_app.
  intros (_ & _ & H)%StronglySorted_app. by apply StronglySorted_app in H as (_ & H & _).
Qed.

(** X8: in a store built by insertions, take any node [a] that child
    links lead to from the root.  Its left child, if it has one, points
    back to [a] as its parent, and every node at or below that child
    holds a word smaller than the word of [a]; its right child points
    back to [a], and every node at or below it holds a greater word. *)
Theorem search_tree_below_every_node h root r a :
  reachable h root → root = Some r → below h r a →
  ∃ wa, getWord h (Some a) = Some wa ∧
    (∀ b c, getLeftChild h (Some a) = Some b → below h b c →
       getParent h (Some b) = Some a ∧
       ∃ wc, getWord h (Some c) = Some wc ∧ word_lt wc wa) ∧
    (∀ b c, getRightChild h (Some a) = Some b → below h b c →
       getParent h (Some b) = Some a ∧
       ∃ wc, getWord h (Some c) = Some wc ∧ word_lt wa wc).
Proof.
  intros (s & (Hroot & Hrep & ND) & Hord & _)%reachable_inv -> Hra.
  assert (a ∈ addrs s) as Ha by (by eapply below_in).
  destruct (shape_split s a Ha) as (c0 & l & r0 & ->).
  pose proof Hrep as (_ & Hlk & Hl & Hr)%rep_plug.
  apply ordered_plug, ordered_node in Hord as (_ & _ & Hlt & Hgt & _).
  assert (∀ x, x ∈ addrs (plug c0 (Node l a r0)) →
               getWord h (Some x) = Some (key h x)) as Hword.
  { intros x Hx. apply getWord_lt. by apply (rep_lt_length h None (plug c0 (Node l a r0))). }
  exists (key h a). split; [by apply Hword|]. split.
  - intros b c Hb Hbc. rewrite getLeftChild_lk, Hlk in Hb. simpl in Hb.
    assert (c ∈ addrs l) as Hc by (by eapply below_in).
    destruct l as [|ll b' lr]; [done|]. injection Hb as ->.
    destruct Hl as (Hlkb & _). split; [by rewrite getParent_lk, Hlkb|].
    exists (key h c). split; [|by apply Hlt].
    apply Hword. rewrite addrs_plug. simpl in *. elem_solver.
  - intros b c Hb Hbc. rewrite getRightChild_lk, Hlk in Hb. simpl in Hb.
    assert (c ∈ addrs r0) as Hc by (by eapply below_in).
    destruct r0 as [|rl b' rr]; [done|]. injection Hb as ->.
    destruct Hr as (Hlkb & _). split; [by rewrite getParent_lk, Hlkb|].
    exists (key h c). split; [|by apply Hgt].
    apply Hword. rewrite addrs_plug. simpl in *. elem_solver.
Qed.

Lemma search_tree_below_every_node_witness :
  (reachable example_store example_root ∧ example_root = Some 0 ∧
   below example_store 0 0) ∧
  ∃ wa, getWord example_store (Some 0) = Some wa ∧
    (∀ b c, getLeftChild example_store (Some 0) = Some b → below example_store b c →
       getParent example_store (Some b) = Some 0 ∧
       ∃ wc, getWord example_store (Some c) = Some wc ∧ word_lt wc wa) ∧
    (∀ b c, getRightChild example_store (Some 0) = Some b → below example_store b c →
       getParent example_store (Some b) = Some 0 ∧
       ∃ wc, getWord example_store (Some c) = Some wc ∧ word_lt wa wc).
Proof.
  assert (example_root = Some 0) as H1 by reflexivity.
  assert (below example_store 0 0) as H2 by constructor.
  split; [split_and!; [apply example_reachable|exact H1|exact H2]|].
  exact (search_tree_below_every_node _ _ 0 0 example_reachable H1 H2).
Defined.

(** X9: in any tree, for a node [a] with parent [p] and grandparent
    [g], [getGrandparent] returns [g] and [getUncle] returns the other
    child of [g]: the right one when [p] is the left child, the left
    one when [p] is the right child.  It never returns [p] or [a], and
    a node it returns belongs to the tree and has [g] as its parent. *)
Theorem getUncle_is_sibling h root s a p g :
  tree h root s → a ∈ addrs s →
  getParent h (Some a) = Some p → getParent h (Some p) = Some g →
  getGrandparent h (Some a) = Some g ∧
  getUncle h (Some a) ≠ Some p ∧ getUncle h (Some a) ≠ Some a ∧
  (getLeftChild h (Some g) = Some p ∧ getUncle h (Some a) = getRightChild h (Some g) ∨
   getRightChild h (Some g) = Some p ∧ getUncle h (Some a) = getLeftChild h (Some g)) ∧
  (∀ u, getUncle h (Some a) = Some u → u ∈ addrs s ∧ getParent h (Some u) = Some g).
Proof.
  intros (_ & Hrep & ND) Ha Hp Hg.
  destruct (shape_split s a Ha) as (c & l & r & ->).
  pose proof Hrep as (Hc & Hlk & _)%rep_plug.
  rewrite getParent_lk, Hlk in Hp. simpl in Hp.
  destruct c as [|f c]; [done|]. injection Hp as <-.
  rewrite addrs_plug in ND.
  destruct f as [p rs|ls p]; cbn [at_frame up] in *; simpl in Hc, ND;
    destruct Hc as (Hlkp & Hs & Hc);
    rewrite getParent_lk, Hlkp in Hg; simpl in Hg;
    (destruct c as [|f' c]; [done|]); injection Hg as <-;
    destruct f' as [g ru|lu g]; cbn [at_frame up] in *; simpl in Hc, ND;
    destruct Hc as (Hlkg & Hu & Hc).
  - rewrite (getGrandparent_lk h a p (Some g) _ _ _ _ Hlk Hlkp).
    rewrite (getUncle_left h a p g _ _ _ _ _ _ Hlk Hlkp Hlkg).
    rewrite getLeftChild_lk, getRightChild_lk, Hlkg. simpl.
    split_and!; [done| | |by left|].
    + intros E%root_of_in. by apart [p] E.
    + intros E%root_of_in. by apart [a] E.
    + intros u Hu'. split.
      * apply root_of_in in Hu'. rewrite addrs_plug. simpl. elem_solver.
      * destruct ru as [|? u' ?]; [done|]. injection Hu' as ->.
        destruct Hu as (Hlku & _). by rewrite getParent_lk, Hlku.
  - assert (root_of lu ≠ Some p) as Hne.
    { intros E%root_of_in. by apart [p] E. }
    rewrite (getGrandparent_lk h a p (Some g) _ _ _ _ Hlk Hlkp).
    rewrite (getUncle_right h a p g _ _ _ _ _ _ Hlk Hlkp Hlkg Hne).
    rewrite getLeftChild_lk, getRightChild_lk, Hlkg. simpl.
    split_and!; [done|done| |by right|].
    + intros E%root_of_in. by apart [a] E.
    + intros u Hu'. split.
      * apply root_of_in in Hu'. rewrite addrs_plug. simpl. elem_solver.
      * destruct lu as [|? u' ?]; [done|]. injection Hu' as ->.
        destruct Hu as (Hlku & _). by rewrite getParent_lk, Hlku.
  - rewrite (getGrandparent_lk h a p (Some g) _ _ _ _ Hlk Hlkp).
    rewrite (getUncle_left h a p g _ _ _ _ _ _ Hlk Hlkp Hlkg).
    rewrite getLeftChild_lk, getRightChild_lk, Hlkg. simpl.
    split_and!; [done| | |by left|].
    + intros E%root_of_in. by apart [p] E.
    + intros E%root_of_in. by apart [a] E.
    + intros u Hu'. split.
      * apply root_of_in in Hu'. rewrite addrs_plug. simpl. elem_solver.
      * destruct ru as [|? u' ?]; [done|]. injection Hu' as ->.
        destruct Hu as (Hlku & _). by rewrite getParent_lk, Hlku.
  - assert (root_of lu ≠ Some p) as Hne.
    { intros E%root_of_in. by apart [p] E. }
    rewrite (getGrandparent_lk h a p (Some g) _ _ _ _ Hlk Hlkp).
    rewrite (getUncle_right h a p g _ _ _ _ _ _ Hlk Hlkp Hlkg Hne).
    rewrite getLeftChild_lk, getRightChild_lk, Hlkg. simpl.
    split_and!; [done|done| |by right|].
    + intros E%root_of_in. by apart [a] E.
    + intros u Hu'. split.
      * apply root_of_in in Hu'. rewrite addrs_plug. simpl. elem_solver.
      * destruct lu as [|? u' ?]; [done|]. injection Hu' as ->.
        destruct Hu as (Hlku & _). by rewrite getParent_lk, Hlku.
Qed.

Lemma deeper_tree : tree deeper_store deeper_root deeper_shape.
Proof.
  unfold tree. split_and!.
  - done.
  - vm_compute. tauto.
  - vm_compute. by apply (bool_decide_unpack _).
Qed.

Lemma getUncle_is_sibling_witness :
  (tree deeper_store deeper_root deeper_shape ∧ 4 ∈ addrs deeper_shape ∧
   getParent deeper_store (Some 4) = Some 2 ∧
   getParent deeper_store (Some 2) = Some 0) ∧
  getGrandparent deeper_store (Some 4) = Some 0 ∧
  getUncle deeper_store (Some 4) ≠ Some 2 ∧
  getUncle deeper_store (Some 4) ≠ Some 4 ∧
  (getLeftChild deeper_store (Some 0) = Some 2 ∧
   getUncle deeper_store (Some 4) = getRightChild deeper_store (Some 0) ∨
   getRightChild deeper_store (Some 0) = Some 2 ∧
   getUncle deeper_store (Some 4) = getLeftChild deeper_store (Some 0)) ∧
  (∀ u, getUncle deeper_store (Some 4) = Some u →
        u ∈ addrs deeper_shape ∧ getParent deeper_store (Some u) = Some 0).
Proof.
  assert (4 ∈ addrs deeper_shape) as H1 by (apply (bool_decide_unpack _); by vm_compute).
  assert (getParent deeper_store (Some 4) = Some 2) as H2 by reflexivity.
  assert (getParent deeper_store (Some 2) = Some 0) as H3 by reflexivity.
  split; [split_and!; [apply deeper_tree|exact H1|exact H2|exact H3]|].
  exact (getUncle_is_sibling _ _ _ 4 2 0 deeper_tree H1 H2 H3).
Defined.

(** ** Disposal *)

Lemma postorder_addrs s : postorder s ≡ₚ addrs s.
Proof.
  induction s as [|l IHl a r IHr]; simpl; [done|].
  rewrite IHl, IHr. apply Permutation_app_head.
  symmetry. apply Permutation_cons_append.
Qed.

Lemma recycleTree_rep h s : ∀ par fuel freed,
  rep h par s → NoDup (addrs s) → (∀ a, a ∈ addrs s → a ∉ freed) →
  length (addrs s) ≤ fuel →
  recycleTree fuel h freed (root_of s) = Some (freed ++ postorder s).
Proof.
  induction s as [|l IHl a r IHr]; intros par fuel freed.
  - intros _ _ _ _. simpl. rewrite app_nil_r. by destruct fuel.
  - simpl. intros (Ha & Hl & Hr) ND Hfr Hfuel.
    rewrite length_app in Hfuel. simpl in Hfuel.
    destruct fuel as [|fuel]; [lia|]. simpl.
    apply NoDup_app in ND as (NDl & Hlr & (Har & NDr)%NoDup_cons).
    rewrite decide_False by (apply Hfr; elem_solver).
    rewrite getLeftChild_lk, getRightChild_lk, Ha. simpl.
    rewrite (IHl (Some a) fuel freed Hl NDl); [| |lia].
    2: { intros x Hx. apply Hfr. elem_solver. }
    assert (a ∉ freed ++ postorder l) as Hal.
    { rewrite elem_of_app, postorder_addrs. intros [Hx|Hx].
      - revert Hx. apply Hfr. elem_solver.
      - apply (Hlr a Hx). elem_solver. }
    rewrite decide_False by done.
    rewrite (IHr (Some a) fuel (freed ++ postorder l) Hr NDr); [| |lia].
    2: { intros x Hx. rewrite elem_of_app, postorder_addrs. intros [Hx'|Hx'].
         - revert Hx'. apply Hfr. elem_solver.
         - apply (Hlr x Hx'). elem_solver. }
    rewrite decide_False.
    + by rewrite <- !app_assoc.
    + intros [Hx|Hx]%elem_of_app; [done|].
      rewrite postorder_addrs in Hx. by apply Har.
Qed.

(** X10: in a tree, [recycleTree] releases the cells of the tree and no
    other, each one once and after the cells of both its subtrees; it
    reads no cell that it has released. *)
Theorem recycleTree_frees_tree h root s fuel :
  tree h root s → length (addrs s) ≤ fuel →
  recycleTree fuel h [] root = Some (postorder s) ∧
  NoDup (postorder s) ∧ postorder s ≡ₚ addrs s.
Proof.
  intros (-> & Hrep & ND) Hfuel. split_and!.
  - rewrite (recycleTree_rep h s None fuel []); try done.
    intros a _. apply not_elem_of_nil.
  - by rewrite postorder_addrs.
  - apply postorder_addrs.
Qed.

Lemma recycleTree_frees_tree_witness :
  (tree example_store example_root example_shape ∧
   length (addrs example_shape) ≤ 3) ∧
  recycleTree 3 example_store [] example_root = Some [2; 3; 0] ∧
  NoDup (postorder example_shape) ∧ postorder example_shape ≡ₚ addrs example_shape.
Proof.
  assert (length (addrs example_shape) ≤ 3) as H by (vm_compute; lia).
  split; [split; [apply example_tree|exact H]|].
  exact (recycleTree_frees_tree _ _ _ 3 example_tree H).
Defined.

(** X11: after any sequence of insertions that leaves a tree,
    [recycleTree] releases every cell of the store but the one at
    address 1: the second cell that the first call of [insert]
    allocates (line 253) is linked nowhere and is never released. *)
Theorem recycleTree_leaves_one_cell h root fuel :
  reachable h root → root ≠ None → length h ≤ fuel →
  ∃ freed,
    recycleTree fuel h [] root = Some freed ∧ NoDup freed ∧
    (∀ a, a ∈ freed ↔ a < length h ∧ a ≠ 1) ∧
    1 < length h ∧ S (length freed) = length h.
Proof.
  intros (s & Hinv & _ & Hlen & Hcells)%reachable_cells Hroot Hfuel.
  specialize (Hlen Hroot). destruct Hinv as (Ht & _).
  pose proof (tree_size _ _ _ Ht) as Hs.
  destruct Ht as (-> & Hrep & ND).
  exists (postorder s).
  assert (NoDup (postorder s)) as NDp by (by rewrite postorder_addrs).
  assert (∀ a, a ∈ postorder s ↔ a < length h ∧ a ≠ 1) as Hp.
  { intros a. by rewrite postorder_addrs. }
  split_and!; try done.
  - rewrite (recycleTree_rep h s None fuel []); try done; [|lia].
    intros a _. apply not_elem_of_nil.
  - assert (1 :: postorder s ≡ₚ seq 0 (length h)) as HP.
    { apply NoDup_Permutation.
      - apply NoDup_cons. split; [|done]. rewrite Hp. lia.
      - apply NoDup_seq.
      - intros a. rewrite elem_of_cons, Hp, elem_of_seq. lia. }
    apply Permutation_length in HP. rewrite length_seq in HP. done.
Qed.

Lemma recycleTree_leaves_one_cell_witness :
  (reachable example_store example_root ∧ example_root ≠ None ∧
   length example_store ≤ 4) ∧
  ∃ freed,
    recycleTree 4 example_store [] example_root = Some freed ∧ NoDup freed ∧
    (∀ a, a ∈ freed ↔ a < length example_store ∧ a ≠ 1) ∧
    1 < length example_store ∧ S (length freed) = length example_store.
Proof.
  assert (example_root ≠ None) as H1 by done.
  assert (length example_store ≤ 4) as H2 by (vm_compute; lia).
  split; [split_and!; [apply example_reachable|exact H1|exact H2]|].
  exact (recycleTree_leaves_one_cell _ _ 4 example_reachable H1 H2).
Defined.

(** ** The words of the argument *)

Lemma char_at_middle pre ch suf : char_at (pre ++ ch :: suf) (length pre) = Some ch.
Proof. unfold char_at. rewrite <- app_assoc. simpl. by rewrite list_lookup_middle. Qed.

Lemma char_at_end arg : char_at arg (length arg) = Some "000"%char.
Proof. unfold char_at. by rewrite list_lookup_middle. Qed.

Lemma strlen_arg arg : "000"%char ∉ arg → strlen (arg ++ ["000"%char]) = length arg.
Proof.
  induction arg as [|ch arg IH]; [done|].
  intros [Hch Harg]%not_elem_of_cons. simpl.
  destruct (Ascii.eqb_spec ch "000"); [congruence|]. by rewrite IH.
Qed.

Lemma scan_unfold (isalpha : ascii → bool) fuel arg inputLength wordLength i :
  scan isalpha fuel arg inputLength wordLength i =
  match char_at arg i with
  | None => None
  | Some ch =>
      if (isalpha ch && (i <? inputLength))%bool then
        match fuel with
        | 0 => None
        | S fuel => scan isalpha fuel arg inputLength (wordLength + 1) (i + 1)
        end
      else Some (wordLength, i)
  end.
Proof. by destruct fuel. Qed.

Lemma split_words_unfold (isalpha : ascii → bool) fuel arg inputLength i :
  split_words isalpha fuel arg inputLength i =
  if i <? inputLength then
    match fuel with
    | 0 => None
    | S fuel =>
        match scan isalpha fuel arg inputLength 0 i with
        | None => None
        | Some (wordLength, i) =>
            match split_words isalpha fuel arg inputLength (i + 1) with
            | None => None
            | Some ws =>
                Some (if decide (wordLength ≠ 0)
                      then memcpy arg (i - wordLength) wordLength :: ws
                      else ws)
            end
        end
    end
  else Some [].
Proof. by destruct fuel. Qed.

(** The inner loop runs to the end of the alphabetic run it starts in. *)
Lemma scan_run (isalpha : ascii → bool) w : ∀ fuel pre rest k,
  Forall (λ ch, isalpha ch = true) w →
  match rest with [] => True | d :: _ => isalpha d = false end →
  length w ≤ fuel →
  scan isalpha fuel (pre ++ w ++ rest) (length (pre ++ w ++ rest)) k (length pre)
  = Some (k + length w, length pre + length w).
Proof.
  induction w as [|ch w IH]; intros fuel pre rest k Hw Hrest Hfuel;
    rewrite scan_unfold.
  - simpl. rewrite !Nat.add_0_r. destruct rest as [|d rest].
    + rewrite app_nil_r, char_at_end.
      by rewrite (proj2 (Nat.ltb_ge _ _)), andb_false_r by lia.
    + by rewrite char_at_middle, Hrest.
  - apply Forall_cons in Hw as [Hch Hw]. simpl. rewrite char_at_middle, Hch.
    rewrite (proj2 (Nat.ltb_lt _ _)).
    2: { rewrite !length_app. simpl. lia. }
    simpl in Hfuel. destruct fuel as [|fuel]; [lia|]. simpl.
    replace (pre ++ ch :: w ++ rest) with ((pre ++ [ch]) ++ w ++ rest)
      by (by rewrite <- app_assoc).
    replace (length pre + 1) with (length (pre ++ [ch]))
      by (rewrite length_app; simpl; lia).
    rewrite IH by (done || lia). rewrite length_app. simpl. f_equal. f_equal; lia.
Qed.

Lemma alpha_prefix (isalpha : ascii → bool) suf :
  ∃ w rest, suf = w ++ rest ∧ Forall (λ ch, isalpha ch = true) w ∧
            match rest with [] => True | d :: _ => isalpha d = false end.
Proof.
  induction suf as [|ch suf (w & rest & -> & Hw & Hrest)].
  - by exists [], [].
  - destruct (isalpha ch) eqn:Hch.
    + exists (ch :: w), rest. split_and!; try done. by constructor.
    + exists [], (ch :: w ++ rest). split_and!; try done.
Qed.

Lemma memcpy_middle pre w rest :
  memcpy (pre ++ w ++ rest) (length pre + length w - length w) (length w) = w.
Proof.
  unfold memcpy. replace (length pre + length w - length w) with (length pre) by lia.
  by rewrite drop_app_length, take_app_length.
Qed.

Lemma split_words_tokens (isalpha : ascii → bool) n : ∀ suf pre fuel,
  length suf ≤ n → length suf < fuel →
  ∃ ws, split_words isalpha fuel (pre ++ suf) (length (pre ++ suf)) (length pre) = Some ws ∧
        tokens_of isalpha suf ws.
Proof.
  induction n as [|n IH]; intros suf pre fuel Hn Hfuel; rewrite split_words_unfold.
  - destruct suf; [|simpl in Hn; lia]. rewrite app_nil_r.
    rewrite (proj2 (Nat.ltb_ge _ _)) by lia. exists []. split; [done|constructor].
  - destruct suf as [|ch0 suf0].
    { rewrite app_nil_r, (proj2 (Nat.ltb_ge _ _)) by lia.
      exists []. split; [done|constructor]. }
    destruct (alpha_prefix isalpha (ch0 :: suf0)) as (w & rest & E & Hw & Hrest).
    assert (length w + length rest = S (length suf0)) as Hlen.
    { rewrite <- length_app, <- E. done. }
    simpl in Hn, Hfuel. rewrite E. clear E.
    rewrite (proj2 (Nat.ltb_lt _ _)) by (rewrite !length_app; lia).
    destruct fuel as [|fuel]; [lia|].
    rewrite (scan_run isalpha w fuel pre rest 0) by (done || lia). simpl.
    destruct rest as [|d rest].
    + rewrite split_words_unfold.
      rewrite (proj2 (Nat.ltb_ge _ _)) by (rewrite !length_app; simpl; lia).
      destruct w as [|ch w]; [simpl in Hlen; lia|].
      rewrite decide_True by done. rewrite memcpy_middle.
      eexists. split; [done|]. rewrite app_nil_r. by constructor.
    + replace (pre ++ w ++ d :: rest) with ((pre ++ w ++ [d]) ++ rest)
        by (by rewrite <- !app_assoc).
      replace (length pre + length w + 1) with (length (pre ++ w ++ [d]))
        by (rewrite !length_app; simpl; lia).
      destruct (IH rest (pre ++ w ++ [d]) fuel) as (ws & -> & Hws);
        [simpl in Hlen; lia..|].
      replace ((pre ++ w ++ [d]) ++ rest) with (pre ++ w ++ d :: rest)
        by (by rewrite <- !app_assoc).
      rewrite memcpy_middle.
      destruct w as [|ch w].
      * rewrite decide_False by (simpl; lia). exists ws. split; [done|].
        by constructor.
      * rewrite decide_True by done. exists ((ch :: w) :: ws). split; [done|].
        by constructor.
Qed.

Lemma tokens_of_alphabetic (isalpha : ascii → bool) arg ws :
  tokens_of isalpha arg ws →
  Forall (λ w, w ≠ [] ∧ Forall (λ ch, isalpha ch = true) w) ws ∧
  concat ws = List.filter isalpha arg.
Proof.
  assert (∀ w, Forall (λ ch, isalpha ch = true) w → List.filter isalpha w = w) as Hall.
  { induction 1 as [|ch w Hch _ IH]; simpl; [done|]. by rewrite Hch, IH. }
  induction 1 as [|d rest ws Hd _ [IH1 IH2]|w Hne Hw|w d rest ws Hne Hw Hd _ [IH1 IH2]].
  - done.
  - split; [done|]. simpl. by rewrite Hd.
  - split; [by repeat constructor|]. simpl. by rewrite app_nil_r, Hall.
  - split; [by constructor|]. simpl.
    by rewrite List.filter_app, Hall, IH2; simpl; rewrite ?Hd.
Qed.

(** X12: for an argument that is a C string shorter than [INT_MAX], the
    loop of [main] terminates without reading beyond the terminating
    NUL, and the character sequences it copies for [insert] are the
    maximal runs of alphabetic characters of the argument, in order:
    the argument cut at every non-alphabetic character, the empty
    pieces dropped.  Each of them is non-empty and alphabetic, and
    together they are the alphabetic characters of the argument. *)
Theorem main_cuts_words (isalpha : ascii → bool) arg :
  "000"%char ∉ arg → (Z.of_nat (length arg) < 2147483647)%Z →
  ∃ ws,
    main_words isalpha (S (length arg)) arg = Some ws ∧
    tokens_of isalpha arg ws ∧
    Forall (λ w, w ≠ [] ∧ Forall (λ ch, isalpha ch = true) w) ws ∧
    concat ws = List.filter isalpha arg.
Proof.
  intros Hnul _. unfold main_words. rewrite strlen_arg by done.
  destruct (split_words_tokens isalpha (length arg) arg [] (S (length arg)))
    as (ws & Hws & Htok); [lia..|].
  exists ws. split; [done|]. split; [done|]. by apply tokens_of_alphabetic.
Qed.

Lemma main_cuts_words_witness :
  (("000"%char ∉ list_ascii_of_string "ab, c!") ∧
   (Z.of_nat (length (list_ascii_of_string "ab, c!")) < 2147483647)%Z) ∧
  ∃ ws,
    main_words c_isalpha 7 (list_ascii_of_string "ab, c!") = Some ws ∧
    tokens_of c_isalpha (list_ascii_of_string "ab, c!") ws ∧
    Forall (λ w, w ≠ [] ∧ Forall (λ ch, c_isalpha ch = true) w) ws ∧
    concat ws = List.filter c_isalpha (list_ascii_of_string "ab, c!").
Proof.
  assert ("000"%char ∉ list_ascii_of_string "ab, c!") as H1.
  { apply (bool_decide_unpack _). by vm_compute. }
  assert ((Z.of_nat (length (list_ascii_of_string "ab, c!")) < 2147483647)%Z) as H2
    by (simpl; lia).
  split; [by split|].
  exact (main_cuts_words c_isalpha (list_ascii_of_string "ab, c!") H1 H2).
Defined.
